(** * Story.generator: the generation-and-filtering pipeline

    A shallow embedding of [model_utils.py] (class [NextSentencePredictor],
    [validate_input]) and of [generate_stories] from [app.py], with the
    properties of the candidate filter and of the over-generation loop.

    Python strings are lists of characters; a character is a code point
    below 256, carried by [ascii].  The language model and its tokenizer
    are an external dependency: one sampling attempt either raises or hands
    back a decoded text, and that is all the pipeline sees of it. *)

From Stdlib Require Import String Ascii ZArith Lia Bool Arith List.
Import ListNotations.

Local Open Scope list_scope.

(** ** Python strings *)

Module PyStr.

Definition str := list ascii.

Definition lit (s : string) : str := list_ascii_of_string s.

Definition str_eq_dec : forall a b : str, {a = b} + {a <> b} :=
  list_eq_dec ascii_dec.

Definition code (c : ascii) : nat := nat_of_ascii c.

Definition between (lo hi n : nat) : bool := (lo <=? n) && (n <=? hi).

(** [str.isspace] on one character: the code points below 256 that Python
    counts as whitespace. *)
Definition isspace (c : ascii) : bool :=
  let n := code c in
  between 9 13 n || between 28 32 n || (n =? 133) || (n =? 160).

(** [str.isalpha] on one character, code points below 256. *)
Definition isalpha_char (c : ascii) : bool :=
  let n := code c in
  between 65 90 n || between 97 122 n
  || (n =? 170) || (n =? 181) || (n =? 186)
  || between 192 214 n || between 216 246 n || between 248 255 n.

(** [s.isalpha()]: every character alphabetic and at least one character. *)
Definition isalpha (s : str) : bool :=
  match s with
  | [] => false
  | _ => forallb isalpha_char s
  end.

Fixpoint lstrip (s : str) : str :=
  match s with
  | [] => []
  | c :: rest => if isspace c then lstrip rest else s
  end.

Definition rstrip (s : str) : str := rev (lstrip (rev s)).

(** [s.strip()] *)
Definition strip (s : str) : str := rstrip (lstrip s).

(** [s.startswith(p)] *)
Fixpoint startswith (s p : str) {struct p} : bool :=
  match p, s with
  | [], _ => true
  | _ :: _, [] => false
  | a :: p', b :: s' => if ascii_dec a b then startswith s' p' else false
  end.

(** [s.split()]: the maximal runs of non-whitespace characters. *)
Fixpoint split (s : str) : list str :=
  match s with
  | [] => []
  | c :: rest =>
      if isspace c then split rest
      else match rest with
           | [] => [[c]]
           | c' :: _ =>
               if isspace c' then [c] :: split rest
               else match split rest with
                    | w :: ws => (c :: w) :: ws
                    | [] => [[c]]
                    end
           end
  end.

(** [sep.join(parts)] *)
Fixpoint join (sep : str) (parts : list str) : str :=
  match parts with
  | [] => []
  | [p] => p
  | p :: ps => p ++ sep ++ join sep ps
  end.

(** [x in l] for a list of strings *)
Definition mem (x : str) (l : list str) : bool :=
  if in_dec str_eq_dec x l then true else false.

(** [l[:n]] for a Python integer [n] (a negative [n] counts from the end). *)
Definition slice_to {A} (l : list A) (n : Z) : list A :=
  if (0 <=? n)%Z then firstn (Z.to_nat n) l
  else firstn (length l - Z.to_nat (- n)) l.

(** The sentence terminators of the pattern [[.!?]+]. *)
Definition is_terminator (c : ascii) : bool :=
  let n := code c in (n =? 46) || (n =? 33) || (n =? 63).

(** [re.split(r'[.!?]+', s)]: the pieces between maximal runs of
    terminators; a run at either end leaves an empty piece there. *)
Fixpoint re_split (s : str) : list str :=
  match s with
  | [] => [[]]
  | c :: rest =>
      if is_terminator c then
        match rest with
        | [] => [[]; []]
        | c' :: _ => if is_terminator c' then re_split rest
                     else [] :: re_split rest
        end
      else match re_split rest with
           | seg :: segs => (c :: seg) :: segs
           | [] => [[c]]
           end
  end.

End PyStr.

Import PyStr.

(** ** [validate_input] *)

Definition msg_empty : str := lit "Input text cannot be empty".
Definition msg_short : str :=
  lit "Input text is too short (minimum 3 characters)".
Definition msg_long : str :=
  lit "Input text is too long (maximum 200 characters)".

Definition is_empty (s : str) : bool :=
  match s with [] => true | _ => false end.

Definition validate_input (text : str) : bool * str :=
  if is_empty text || is_empty (strip text) then (false, msg_empty)
  else if length (strip text) <? 3 then (false, msg_short)
  else if 200 <? length (strip text) then (false, msg_long)
  else (true, []).

(** ** The external language model

    [tokenizer.encode], [model.generate] and [tokenizer.decode] are calls
    into the pretrained model.  Sampling is stochastic, so the [k]-th
    sampling call of a run is answered by an oracle: it raises, or it
    returns the decoded text (prompt and continuation).  The sampling
    parameters (length, temperature, top-k, top-p) only reach the oracle
    and have no other effect on the pipeline. *)

Inductive Attempt : Type :=
| Decoded (text : str)
| Raised.

Record LM : Type := {
  encode_raises : bool;
  sample : nat -> Attempt
}.

(** A computation that may raise and that counts the sampling calls made
    so far. *)
Module Eff.

Inductive Res (A : Type) : Type :=
| Ret (a : A)
| Exn.
Arguments Ret {A} a.
Arguments Exn {A}.

Definition M (A : Type) : Type := nat -> Res A * nat.

Definition ret {A} (a : A) : M A := fun k => (Ret a, k).

Definition bind {A B} (m : M A) (f : A -> M B) : M B :=
  fun k => match m k with
           | (Ret a, k') => f a k'
           | (Exn, k') => (Exn, k')
           end.

(** [try: body except Exception: handler] *)
Definition try_except {A} (body handler : M A) : M A :=
  fun k => match body k with
           | (Ret a, k') => (Ret a, k')
           | (Exn, k') => handler k'
           end.

End Eff.

Import Eff.

Notation "x <- m ;; f" := (bind m (fun x => f))
  (at level 61, m at next level, right associativity).

(** [tokenizer.encode(input_text, return_tensors='pt')] *)
Definition encode (lm : LM) : M unit :=
  fun k => (if encode_raises lm then Exn else Ret tt, k).

(** One sampling attempt: [model.generate] under [torch.no_grad()] followed
    by [tokenizer.decode]. *)
Definition generate_decode (lm : LM) : M str :=
  fun k => (match sample lm k with
            | Decoded text => Ret text
            | Raised => Exn
            end, S k).

(** ** The model session *)

Record GPT2Tokenizer : Type := {
  eos_token : nat;
  pad_token : option nat
}.

Inductive GPT2LMHeadModel : Type :=
| Weights (name : str).

Record NextSentencePredictor : Type := {
  model_name : str;
  model : option GPT2LMHeadModel;
  tokenizer : option GPT2Tokenizer
}.

(** [load_model]: the two [from_pretrained] calls answer [None] when they
    raise.  The tokenizer is stored before the model is fetched. *)
Definition load_model (self : NextSentencePredictor)
    (fetch_tokenizer : option GPT2Tokenizer)
    (fetch_model : option GPT2LMHeadModel) : NextSentencePredictor * Res bool :=
  match fetch_tokenizer with
  | None => (self, Ret false)
  | Some tok =>
      let self1 := {| model_name := model_name self;
                      model := model self;
                      tokenizer := Some tok |} in
      match fetch_model with
      | None => (self1, Ret false)
      | Some m =>
          ({| model_name := model_name self;
              model := Some m;
              tokenizer := Some {| eos_token := eos_token tok;
                                   pad_token := Some (eos_token tok) |} |},
           Ret true)
      end
  end.

(** [__init__]: both fields start as [None], then [load_model] runs and its
    answer is dropped. *)
Definition init (name : str) (fetch_tokenizer : option GPT2Tokenizer)
    (fetch_model : option GPT2LMHeadModel) : NextSentencePredictor :=
  fst (load_model {| model_name := name; model := None; tokenizer := None |}
         fetch_tokenizer fetch_model).

(** ** The candidate filter, single-sentence mode *)

Definition space : str := lit " ".

(** Lines 54-55: the prompt is cut off only behind [startswith]. *)
Definition remove_input (text input_text : str) : str :=
  if startswith text input_text
  then strip (skipn (length input_text) text)
  else text.

(** Lines 68-69: the last word goes when it is short or not alphabetic. *)
Definition drop_incomplete (words : list str) : list str :=
  if (length (last words []) <? 2) || negb (isalpha (last words []))
  then removelast words
  else words.

Definition clean_generated_text (text input_text : str) : str :=
  let text := remove_input text input_text in
  let sentences := re_split text in
  match sentences with
  | s0 :: _ =>
      if negb (is_empty (strip s0)) then
        let clean_sentence := strip s0 in
        let words := split clean_sentence in
        match words with
        | _ :: _ => join space (drop_incomplete words)
        | [] => strip text
        end
      else strip text
  | [] => strip text
  end.

(** Lines 120-123 of [model_utils.py]. *)
Definition acceptable (clean_prediction : str) (predictions : list str) : bool :=
  negb (is_empty clean_prediction)
  && (3 <=? length (split clean_prediction))
  && negb (mem clean_prediction predictions)
  && (10 <=? length clean_prediction).

(** The body of [for i in range(num_predictions * 2)], [iters] rounds left. *)
Fixpoint predictions_loop (lm : LM) (input_text : str) (num_predictions : Z)
    (iters : nat) (predictions : list str) : M (list str) :=
  match iters with
  | O => ret predictions
  | S iters' =>
      generated_text <- generate_decode lm ;;
      let clean_prediction := clean_generated_text generated_text input_text in
      let predictions :=
        if acceptable clean_prediction predictions
        then predictions ++ [clean_prediction]
        else predictions in
      if (num_predictions <=? Z.of_nat (length predictions))%Z
      then ret predictions
      else predictions_loop lm input_text num_predictions iters' predictions
  end.

Definition generate_predictions (self : NextSentencePredictor) (lm : LM)
    (input_text : str) (num_predictions : Z) : M (list str) :=
  match model self, tokenizer self with
  | Some _, Some _ =>
      try_except
        (_ <- encode lm ;;
         predictions <- predictions_loop lm input_text num_predictions
                          (Z.to_nat (num_predictions * 2)) [] ;;
         ret (slice_to predictions num_predictions))
        (ret [])
  | _, _ => ret []
  end.

(** ** The candidate filter, story mode ([app.py]) *)

Definition period_space : str := lit ". ".
Definition period : str := lit ".".

(** Line 117: the slice is taken whatever the text starts with. *)
Definition new_text_of (generated_text input_text : str) : str :=
  strip (skipn (length input_text) generated_text).

(** Lines 120-125: [None] when the completion is dropped before the length
    and uniqueness test. *)
Definition clean_story (new_text : str) : option str :=
  let sentences := re_split new_text in
  if 2 <=? length sentences then
    let story_sentences :=
      map strip (filter (fun s => negb (is_empty (strip s)))
                        (firstn 4 sentences)) in
    if 2 <=? length story_sentences
    then Some (join period_space story_sentences ++ period)
    else None
  else None.

Definition add_story (stories : list str) (new_text : str) : list str :=
  match clean_story new_text with
  | Some story =>
      if (50 <? length story) && negb (mem story stories)
      then stories ++ [story]
      else stories
  | None => stories
  end.

(** The body of [for i in range(num_stories * 2)]; there is no [break]. *)
Fixpoint stories_loop (lm : LM) (input_text : str) (iters : nat)
    (stories : list str) : M (list str) :=
  match iters with
  | O => ret stories
  | S iters' =>
      generated_text <- generate_decode lm ;;
      let stories := add_story stories (new_text_of generated_text input_text) in
      stories_loop lm input_text iters' stories
  end.

Definition generate_stories (lm : LM) (input_text : str) (num_stories : Z)
    : M (list str) :=
  try_except
    (_ <- encode lm ;;
     stories <- stories_loop lm input_text (Z.to_nat (num_stories * 2)) [] ;;
     ret (slice_to stories num_stories))
    (ret []).

(** ** What a run has seen

    The decoded texts of the [count] sampling calls from call [k] on, in
    call order (a call that raised has none). *)

Fixpoint decoded_texts (lm : LM) (k count : nat) : list str :=
  match count with
  | O => []
  | S count' =>
      match sample lm k with
      | Decoded text => text :: decoded_texts lm (S k) count'
      | Raised => decoded_texts lm (S k) count'
      end
  end.

(** A model that echoes the prompt: each of its completions is the prompt
    followed by the completion of [conts]. *)
Definition echo (input_text : str) (a : Attempt) : Attempt :=
  match a with
  | Decoded rest => Decoded (input_text ++ rest)
  | Raised => Raised
  end.

Definition echoing (input_text : str) (conts : LM) : LM :=
  {| encode_raises := encode_raises conts;
     sample := fun k => echo input_text (sample conts k) |}.

(** [subseq l1 l2]: [l1] is [l2] with some entries left out, order kept. *)
Inductive subseq {A : Type} : list A -> list A -> Prop :=
| subseq_nil : subseq [] []
| subseq_skip : forall x l1 l2, subseq l1 l2 -> subseq l1 (x :: l2)
| subseq_take : forall x l1 l2, subseq l1 l2 -> subseq (x :: l1) (x :: l2).

(** De-duplication that keeps the first occurrence of each string. *)
Fixpoint dedup_from (seen l : list str) : list str :=
  match l with
  | [] => []
  | x :: l' => if mem x seen then dedup_from seen l'
               else x :: dedup_from (x :: seen) l'
  end.

Definition dedup (l : list str) : list str := dedup_from [] l.

(** The stories that the completions of a run lead to, in call order. *)
Fixpoint story_candidates (input_text : str) (texts : list str) : list str :=
  match texts with
  | [] => []
  | text :: texts' =>
      match clean_story (new_text_of text input_text) with
      | Some story => story :: story_candidates input_text texts'
      | None => story_candidates input_text texts'
      end
  end.

(** The text before its first terminator: the first terminator-delimited
    segment, read off the text itself. *)
Fixpoint first_segment (s : str) : str :=
  match s with
  | [] => []
  | c :: rest => if is_terminator c then [] else c :: first_segment rest
  end.

Definition no_terminator (s : str) : Prop :=
  Forall (fun c => is_terminator c = false) s.

(** A piece of text that does not trim to nothing. *)
Definition nonblank (s : str) : bool := negb (is_empty (strip s)).

(** The segments a story is built from: what is left of the first four
    pieces of the text once the blank ones are taken out. *)
Definition kept_segments (new_text : str) : list str :=
  map strip (filter nonblank (firstn 4 (re_split new_text))).

(** ** The filter as the specification words it

    These two definitions follow the text of the specification, not the
    code; they are what the code is compared with. *)

(** "an ordered sequence of trimmed segments, with empty segments
    discarded" *)
Definition spec_segments (text : str) : list str :=
  filter (fun s => negb (is_empty s)) (map strip (re_split text)).

(** "if its final word is shorter than 2 characters or contains any
    non-alphabetic character, drop that trailing word" *)
Definition spec_repair (words : list str) : list str :=
  let w := last words [] in
  if (length w <? 2) || existsb (fun c => negb (isalpha_char c)) w
  then removelast words
  else words.

(** "take the first non-empty segment; ... return the remaining words
    joined by single spaces"; [None] when no segment is non-empty, on which
    the specification is silent. *)
Definition spec_single_sentence (text : str) : option str :=
  match spec_segments text with
  | seg :: _ => Some (join space (spec_repair (split seg)))
  | [] => None
  end.

(** "take up to the first 4 non-empty segments, requiring at least 2 to
    proceed; rejoin them with a period-plus-space separator and a trailing
    period" *)
Definition spec_story (text : str) : option str :=
  let segs := firstn 4 (spec_segments text) in
  if 2 <=? length segs
  then Some (join period_space segs ++ period)
  else None.

(** ** Sample inputs *)

Module Samples.

Definition gpt2 : str := lit "gpt2".
Definition tok : GPT2Tokenizer := {| eos_token := 7; pad_token := None |}.

(** A session whose model loaded, and one whose model did not. *)
Definition loaded : NextSentencePredictor :=
  init gpt2 (Some tok) (Some (Weights gpt2)).
Definition unloaded : NextSentencePredictor :=
  init gpt2 (Some tok) None.

Definition store : str := lit "I went to the store to".
Definition raw_bread : str :=
  lit "I went to the store to buy milk and bread. Then I went home. It was raining.".
Definition raw_br3ad : str :=
  lit "I went to the store to buy milk and br3ad. Then I went home.".
Definition raw_dots : str :=
  lit "I went to the store to... and then he went home".

(** Always the same completion. *)
Definition lm_const (text : str) : LM :=
  {| encode_raises := false; sample := fun _ => Decoded text |}.

(** The first attempt succeeds, every later one raises. *)
Definition lm_then_raise (text : str) : LM :=
  {| encode_raises := false;
     sample := fun k => match k with O => Decoded text | S _ => Raised end |}.

Definition go : str := lit "go go go".
Definition raw_go : str := lit "go go go go go go home now okay".

Definition once : str := lit "Once upon a time".
Definition raw_once : str :=
  lit "Once upon a time there was a small village by the sea. The people there were fishermen and farmers. They lived".
Definition raw_once_twice : str :=
  lit "Once upon a time Once upon a time there was a small village by the sea. The people there were fishermen. They lived".

(** A prompt that the tokenizer's decoding does not give back letter for
    letter (the space before a comma is cleaned away). *)
Definition oh_no : str := lit "Oh , no , not".
Definition raw_oh_no : str :=
  lit "Oh, no, not again said the old man by the door. The rain had started an hour before. Nobody answered".

Definition raw_knock : str :=
  lit "Once upon a time... The village was quiet that night. Nobody dared to walk outside. The wind howled. Then came the knock. Everyone froze".

(** The completions alternate: "... bread", "... br3ad", "... bread", ... *)
Definition lm_alternating : LM :=
  {| encode_raises := false;
     sample := fun k => if Nat.even k then Decoded raw_bread
                        else Decoded raw_br3ad |}.

End Samples.

(** ** The acceptance tests, apart from the list they guard *)

(** The part of the test of lines 120-123 of [model_utils.py] that looks at
    the candidate alone. *)
Definition quality (c : str) : bool :=
  negb (is_empty c) && (3 <=? length (split c)) && (10 <=? length c).

(** The length test of line 126 of [app.py]. *)
Definition long_enough (story : str) : bool := 50 <? length story.

(** A word as [str.split] yields them: not empty, no whitespace in it. *)
Definition is_word (w : str) : bool :=
  negb (is_empty w) && forallb (fun c => negb (isspace c)) w.

(** What the single-sentence loop is heading for from [preds] on: the
    first occurrences of the candidates of quality not yet in [preds]. *)
Definition heading (preds : list str) (cs : list str) : list str :=
  preds ++ dedup_from preds (filter quality cs).

(** Story mode: the loop ends with every long enough story it met, first
    occurrences only. *)
Definition story_heading (input_text : str) (stories : list str)
    (texts : list str) : list str :=
  stories
  ++ dedup_from stories (filter long_enough (story_candidates input_text texts)).

(** ** Loading, as [app.py] and [test_model.py] do it *)

(** [load_model] of [app.py]: the pair of model and tokenizer, or
    [(None, None)] when a fetch raised. *)
Definition app_load_model (fetch_tokenizer : option GPT2Tokenizer)
    (fetch_model : option GPT2LMHeadModel)
    : option GPT2LMHeadModel * option GPT2Tokenizer :=
  match fetch_tokenizer with
  | None => (None, None)
  | Some tok =>
      match fetch_model with
      | None => (None, None)
      | Some m =>
          (Some m, Some {| eos_token := eos_token tok;
                           pad_token := Some (eos_token tok) |})
      end
  end.

(** [test_model_loading] of [test_model.py]: a fresh predictor, and whether
    it has both its model and its tokenizer. *)
Definition test_model_loading (fetch_tokenizer : option GPT2Tokenizer)
    (fetch_model : option GPT2LMHeadModel) : bool :=
  let predictor := init (lit "gpt2") fetch_tokenizer fetch_model in
  match model predictor, tokenizer predictor with
  | Some _, Some _ => true
  | _, _ => false
  end.

(** * Properties *)

(** ** Input validation *)

Lemma strip_nil : strip [] = [].
Proof. reflexivity. Qed.

Lemma is_empty_true (s : str) : is_empty s = true <-> s = [].
Proof. destruct s; simpl; split; congruence. Qed.

Lemma is_empty_length (s : str) : is_empty s = true <-> length s = 0.
Proof. destruct s; simpl; split; congruence. Qed.

(** C9: [validate_input] answers [(True, "")] exactly on the texts whose
    trimmed form is non-empty and has between 3 and 200 characters, and on
    the four test inputs it answers as the test table says. *)
Theorem validate_input_spec :
  (forall text : str,
      validate_input text = (true, []) <->
      (strip text <> [] /\ 3 <= length (strip text) <= 200))
  /\ (forall text : str, fst (validate_input text) = true ->
                         snd (validate_input text) = [])
  /\ validate_input [] = (false, lit "Input text cannot be empty")
  /\ validate_input (lit "Hi")
     = (false, lit "Input text is too short (minimum 3 characters)")
  /\ validate_input (lit "This is a good sentence") = (true, [])
  /\ validate_input (repeat "A"%char 250)
     = (false, lit "Input text is too long (maximum 200 characters)").
Proof.
  split; [| split; [| repeat split; vm_compute; reflexivity]].
  - intro text. unfold validate_input.
    destruct (is_empty text) eqn:Et.
    + apply is_empty_true in Et. subst text. simpl.
      split; [discriminate | intros [H _]; now elim H].
    + simpl. destruct (is_empty (strip text)) eqn:Es.
      * apply is_empty_true in Es. rewrite Es.
        split; [discriminate | intros [H _]; now elim H].
      * assert (Hne : strip text <> []).
        { intro E. rewrite E in Es. discriminate. }
        destruct (length (strip text) <? 3) eqn:E3.
        { apply Nat.ltb_lt in E3. split; [discriminate | lia]. }
        apply Nat.ltb_ge in E3.
        destruct (200 <? length (strip text)) eqn:E200.
        { apply Nat.ltb_lt in E200. split; [discriminate | lia]. }
        apply Nat.ltb_ge in E200. split; auto.
  - intro text. unfold validate_input.
    destruct (is_empty text || is_empty (strip text)); [discriminate |].
    destruct (length (strip text) <? 3); [discriminate |].
    destruct (200 <? length (strip text)); [discriminate | reflexivity].
Qed.

(** ** A session that failed to load *)

Lemma load_model_failure (self : NextSentencePredictor)
    (ft : option GPT2Tokenizer) (fm : option GPT2LMHeadModel) :
  ft = None \/ fm = None ->
  snd (load_model self ft fm) = Ret false.
Proof. intros [-> | ->]; [reflexivity | destruct ft; reflexivity]. Qed.

Lemma init_failure (name : str)
    (ft : option GPT2Tokenizer) (fm : option GPT2LMHeadModel) :
  ft = None \/ fm = None ->
  model (init name ft fm) = None.
Proof. intros [-> | ->]; [reflexivity | destruct ft; reflexivity]. Qed.

(** C10: with the model or the tokenizer missing, [generate_predictions]
    returns the empty list at once: no sampling call is made (the call
    counter is unchanged) and nothing is raised.  A failing load is
    answered by [load_model] with [False], not by an exception, and leaves
    a fresh session without a model. *)
Theorem unloaded_session_returns_nothing
    (self : NextSentencePredictor) (lm : LM) (input_text : str)
    (num_predictions : Z) (k : nat) :
  (model self = None \/ tokenizer self = None ->
   generate_predictions self lm input_text num_predictions k = (Ret [], k))
  /\ (forall ft fm, ft = None \/ fm = None ->
        snd (load_model self ft fm) = Ret false
        /\ model (init (model_name self) ft fm) = None).
Proof.
  split.
  - unfold generate_predictions.
    intros [H | H]; rewrite H; [reflexivity |].
    destruct (model self); reflexivity.
  - intros ft fm H. split.
    + now apply load_model_failure.
    + now apply init_failure.
Qed.

Lemma unloaded_session_returns_nothing_witness :
  generate_predictions Samples.unloaded (Samples.lm_const Samples.raw_bread)
    Samples.store 3 0 = (Ret [], 0)
  /\ snd (load_model Samples.unloaded (Some Samples.tok) None) = Ret false.
Proof.
  destruct (unloaded_session_returns_nothing Samples.unloaded
              (Samples.lm_const Samples.raw_bread) Samples.store 3 0)
    as [H1 H2].
  split.
  - apply H1. left. reflexivity.
  - apply (H2 (Some Samples.tok) None). right. reflexivity.
Defined.

(** ** Order-keeping sublists and de-duplication *)

Lemma subseq_nil_l {A} (l : list A) : subseq [] l.
Proof. induction l; [apply subseq_nil | now apply subseq_skip]. Qed.

Lemma subseq_refl {A} (l : list A) : subseq l l.
Proof. induction l; [apply subseq_nil | now apply subseq_take]. Qed.

Lemma subseq_app {A} (a b c d : list A) :
  subseq a b -> subseq c d -> subseq (a ++ c) (b ++ d).
Proof.
  intros Hab Hcd. induction Hab; simpl.
  - exact Hcd.
  - now apply subseq_skip.
  - now apply subseq_take.
Qed.

Lemma subseq_firstn {A} (n : nat) (l : list A) : subseq (firstn n l) l.
Proof.
  revert n. induction l as [| x l IH]; intros [| n]; simpl.
  - apply subseq_nil.
  - apply subseq_nil.
  - apply subseq_nil_l.
  - apply subseq_take, IH.
Qed.

Lemma subseq_trans {A} (a b c : list A) :
  subseq a b -> subseq b c -> subseq a c.
Proof.
  intros Hab Hbc. revert a Hab.
  induction Hbc; intros a Hab.
  - exact Hab.
  - apply subseq_skip. auto.
  - inversion Hab; subst.
    + apply subseq_skip. auto.
    + apply subseq_take. auto.
Qed.

Lemma subseq_In {A} (a b : list A) (x : A) :
  subseq a b -> In x a -> In x b.
Proof.
  induction 1; simpl; intuition.
Qed.

Lemma slice_to_subseq {A} (l : list A) (n : Z) : subseq (slice_to l n) l.
Proof. unfold slice_to. destruct (0 <=? n)%Z; apply subseq_firstn. Qed.

Lemma NoDup_firstn {A} (n : nat) (l : list A) : NoDup l -> NoDup (firstn n l).
Proof.
  revert n. induction l as [| x l IH]; intros [| n] H; simpl;
    try constructor.
  - inversion H; subst. intro Hin. apply H2.
    eapply subseq_In; [apply subseq_firstn | exact Hin].
  - inversion H; subst. auto.
Qed.

Lemma slice_to_NoDup {A} (l : list A) (n : Z) : NoDup l -> NoDup (slice_to l n).
Proof. unfold slice_to. destruct (0 <=? n)%Z; apply NoDup_firstn. Qed.

Lemma mem_true (x : str) (l : list str) : mem x l = true <-> In x l.
Proof. unfold mem. destruct (in_dec str_eq_dec x l); split; auto; discriminate. Qed.

Lemma mem_false (x : str) (l : list str) : mem x l = false <-> ~ In x l.
Proof. unfold mem. destruct (in_dec str_eq_dec x l); split; auto; try discriminate; contradiction. Qed.

Lemma NoDup_snoc {A} (l : list A) (x : A) :
  NoDup l -> ~ In x l -> NoDup (l ++ [x]).
Proof.
  induction l as [| y l IH]; simpl; intros Hl Hx.
  - constructor; auto.
  - inversion Hl; subst. constructor.
    + rewrite in_app_iff. simpl. intuition congruence.
    + apply IH; intuition.
Qed.

Lemma dedup_from_fixed (l seen : list str) :
  NoDup l -> (forall x, In x l -> ~ In x seen) -> dedup_from seen l = l.
Proof.
  revert seen. induction l as [| x l IH]; intros seen Hl Hseen; simpl.
  - reflexivity.
  - inversion Hl; subst.
    assert (Hx : mem x seen = false).
    { apply mem_false. apply Hseen. now left. }
    rewrite Hx. f_equal. apply IH; auto.
    intros y Hy [<- | Hin]; [contradiction |].
    apply (Hseen y); [now right | assumption].
Qed.

Lemma dedup_fixed (l : list str) : NoDup l -> dedup l = l.
Proof. intro H. apply dedup_from_fixed; auto. Qed.

(** ** The attempt loops *)

Section Loops.

Variable lm : LM.
Variable input_text : str.

Definition cleaned (k count : nat) : list str :=
  map (fun text => clean_generated_text text input_text)
      (decoded_texts lm k count).

Lemma predictions_loop_S (n : Z) (iters : nat) (preds : list str) (k : nat) :
  predictions_loop lm input_text n (S iters) preds k =
  match sample lm k with
  | Raised => (Exn, S k)
  | Decoded text =>
      let c := clean_generated_text text input_text in
      let preds1 := if acceptable c preds then preds ++ [c] else preds in
      if (n <=? Z.of_nat (length preds1))%Z then (Ret preds1, S k)
      else predictions_loop lm input_text n iters preds1 (S k)
  end.
Proof.
  simpl. unfold bind, generate_decode.
  destruct (sample lm k) as [text |]; [| reflexivity].
  cbv zeta.
  destruct (n <=? _)%Z; reflexivity.
Qed.

Lemma stories_loop_S (iters : nat) (stories : list str) (k : nat) :
  stories_loop lm input_text (S iters) stories k =
  match sample lm k with
  | Raised => (Exn, S k)
  | Decoded text =>
      stories_loop lm input_text iters
        (add_story stories (new_text_of text input_text)) (S k)
  end.
Proof.
  simpl. unfold bind, generate_decode.
  destruct (sample lm k); reflexivity.
Qed.

Lemma acceptable_nonempty (c : str) (preds : list str) :
  acceptable c preds = true -> c <> [] /\ ~ In c preds.
Proof.
  unfold acceptable. rewrite !andb_true_iff, !negb_true_iff.
  intros [[[He _] Hm] _]. split.
  - intro E. subst c. discriminate.
  - now apply mem_false.
Qed.

(** One round of acceptance adds at most the new candidate, at the end. *)
Lemma accept_step (c : str) (preds : list str) :
  exists added,
    (if acceptable c preds then preds ++ [c] else preds) = preds ++ added
    /\ subseq added [c]
    /\ Forall (fun x => x <> []) added
    /\ (NoDup preds -> NoDup (preds ++ added)).
Proof.
  destruct (acceptable c preds) eqn:Ha.
  - apply acceptable_nonempty in Ha. destruct Ha as [Hne Hnin].
    exists [c]. repeat split; auto using subseq_refl.
    intro H. now apply NoDup_snoc.
  - exists []. rewrite app_nil_r. repeat split; auto using subseq_nil_l.
Qed.

Lemma add_story_step (stories : list str) (text : str) :
  exists added,
    add_story stories (new_text_of text input_text) = stories ++ added
    /\ subseq added (story_candidates input_text [text])
    /\ (NoDup stories -> NoDup (stories ++ added)).
Proof.
  unfold add_story. simpl.
  destruct (clean_story (new_text_of text input_text)) as [story |].
  - destruct ((50 <? length story) && negb (mem story stories)) eqn:Ha.
    + apply andb_true_iff in Ha. destruct Ha as [_ Hm].
      apply negb_true_iff, mem_false in Hm.
      exists [story]. repeat split; auto using subseq_refl.
      intro H. now apply NoDup_snoc.
    + exists []. rewrite app_nil_r. repeat split; auto using subseq_nil_l.
  - exists []. rewrite app_nil_r. repeat split; auto using subseq_nil_l.
Qed.

Lemma decoded_texts_S_decoded (k count : nat) (text : str) :
  sample lm k = Decoded text ->
  decoded_texts lm k (S count) = [text] ++ decoded_texts lm (S k) count.
Proof. intro E. simpl. now rewrite E. Qed.

(** A loop that returns has made [c] calls, none of which raised, and has
    appended accepted candidates in call order. *)
Lemma predictions_loop_ret (n : Z) :
  forall iters preds k r k',
    predictions_loop lm input_text n iters preds k = (Ret r, k') ->
    exists c added,
      k' = k + c /\ c <= iters /\ r = preds ++ added
      /\ (forall j, j < c -> sample lm (k + j) <> Raised)
      /\ subseq added (cleaned k c)
      /\ Forall (fun x => x <> []) added
      /\ (NoDup preds -> NoDup r).
Proof.
  induction iters as [| iters IH]; intros preds k r k' Hrun.
  - simpl in Hrun. unfold ret in Hrun. inversion Hrun; subst.
    exists 0, []. rewrite app_nil_r, Nat.add_0_r.
    repeat split; auto; try lia. constructor.
  - rewrite predictions_loop_S in Hrun.
    destruct (sample lm k) as [text |] eqn:Es; [| discriminate].
    cbv zeta in Hrun.
    destruct (accept_step (clean_generated_text text input_text) preds)
      as (added1 & Heq & Hsub & Hne & Hnd).
    rewrite Heq in Hrun.
    destruct (n <=? Z.of_nat (length (preds ++ added1)))%Z.
    + inversion Hrun; subst. exists 1, added1.
      repeat split; auto; try lia.
      * intros j Hj. assert (j = 0) by lia. subst j.
        rewrite Nat.add_0_r, Es. discriminate.
      * unfold cleaned. rewrite (decoded_texts_S_decoded _ _ _ Es).
        simpl. exact Hsub.
    + apply IH in Hrun.
      destruct Hrun as (c & added & -> & Hc & -> & Hs & Hsub' & Hne' & Hnd').
      exists (S c), (added1 ++ added).
      repeat split; try lia.
      * now rewrite app_assoc.
      * intros [| j] Hj.
        { rewrite Nat.add_0_r, Es. discriminate. }
        replace (k + S j) with (S k + j) by lia. apply Hs. lia.
      * unfold cleaned. rewrite (decoded_texts_S_decoded _ _ _ Es).
        rewrite map_app. apply subseq_app; [exact Hsub | exact Hsub'].
      * apply Forall_app; auto.
      * intro H. auto.
Qed.

(** A loop that raises does so at its last call, and that call raised. *)
Lemma predictions_loop_exn (n : Z) :
  forall iters preds k k',
    predictions_loop lm input_text n iters preds k = (Exn, k') ->
    exists c,
      k' = k + S c /\ S c <= iters /\ sample lm (k + c) = Raised
      /\ (forall j, j < c -> sample lm (k + j) <> Raised).
Proof.
  induction iters as [| iters IH]; intros preds k k' Hrun.
  - discriminate.
  - rewrite predictions_loop_S in Hrun.
    destruct (sample lm k) as [text |] eqn:Es.
    + cbv zeta in Hrun.
      match type of Hrun with
      | (if ?b then _ else _) = _ => destruct b; [discriminate |]
      end.
      apply IH in Hrun. destruct Hrun as (c & -> & Hc & Hr & Hs).
      exists (S c). repeat split; try lia.
      * replace (k + S c) with (S k + c) by lia. exact Hr.
      * intros [| j] Hj.
        { rewrite Nat.add_0_r, Es. discriminate. }
        replace (k + S j) with (S k + j) by lia. apply Hs. lia.
    + inversion Hrun; subst. exists 0.
      repeat split; try lia.
      now rewrite Nat.add_0_r.
Qed.

Lemma stories_loop_ret :
  forall iters stories k r k',
    stories_loop lm input_text iters stories k = (Ret r, k') ->
    exists added,
      k' = k + iters /\ r = stories ++ added
      /\ (forall j, j < iters -> sample lm (k + j) <> Raised)
      /\ subseq added (story_candidates input_text (decoded_texts lm k iters))
      /\ (NoDup stories -> NoDup r).
Proof.
  induction iters as [| iters IH]; intros stories k r k' Hrun.
  - simpl in Hrun. unfold ret in Hrun. inversion Hrun; subst.
    exists []. rewrite app_nil_r, Nat.add_0_r.
    repeat split; auto; try lia. constructor.
  - rewrite stories_loop_S in Hrun.
    destruct (sample lm k) as [text |] eqn:Es; [| discriminate].
    destruct (add_story_step stories text) as (added1 & Heq & Hsub & Hnd).
    rewrite Heq in Hrun. apply IH in Hrun.
    destruct Hrun as (added & -> & -> & Hs & Hsub' & Hnd').
    exists (added1 ++ added). repeat split; try lia.
    + now rewrite app_assoc.
    + intros [| j] Hj.
      { rewrite Nat.add_0_r, Es. discriminate. }
      replace (k + S j) with (S k + j) by lia. apply Hs. lia.
    + rewrite (decoded_texts_S_decoded _ _ _ Es).
      assert (Happ : forall a b, story_candidates input_text (a ++ b)
                = story_candidates input_text a ++ story_candidates input_text b).
      { induction a as [| x a IHa]; intro b; simpl; auto.
        destruct (clean_story (new_text_of x input_text)); simpl;
          now rewrite IHa. }
      rewrite Happ. apply subseq_app; [exact Hsub | exact Hsub'].
    + intro H. auto.
Qed.

Lemma stories_loop_exn :
  forall iters stories k k',
    stories_loop lm input_text iters stories k = (Exn, k') ->
    exists c,
      k' = k + S c /\ S c <= iters /\ sample lm (k + c) = Raised
      /\ (forall j, j < c -> sample lm (k + j) <> Raised).
Proof.
  induction iters as [| iters IH]; intros stories k k' Hrun.
  - discriminate.
  - rewrite stories_loop_S in Hrun.
    destruct (sample lm k) as [text |] eqn:Es.
    + apply IH in Hrun. destruct Hrun as (c & -> & Hc & Hr & Hs).
      exists (S c). repeat split; try lia.
      * replace (k + S c) with (S k + c) by lia. exact Hr.
      * intros [| j] Hj.
        { rewrite Nat.add_0_r, Es. discriminate. }
        replace (k + S j) with (S k + j) by lia. apply Hs. lia.
    + inversion Hrun; subst. exists 0.
      repeat split; try lia.
      now rewrite Nat.add_0_r.
Qed.

End Loops.

(** ** Whole requests *)

Section Requests.

Variable lm : LM.
Variable input_text : str.

(** How a single-sentence request ends: nothing was sampled; or the last
    call raised and the answer is empty; or every call returned and the
    answer is a slice of what the loop collected. *)
Lemma generate_predictions_run (self : NextSentencePredictor) (n : Z) (k : nat) :
  exists r k',
    generate_predictions self lm input_text n k = (Ret r, k')
    /\ ((r = [] /\ k' = k)
        \/ (r = [] /\ exists c,
              k' = k + S c /\ S c <= Z.to_nat (n * 2)
              /\ sample lm (k + c) = Raised
              /\ (forall j, j < c -> sample lm (k + j) <> Raised))
        \/ (exists preds c,
              r = slice_to preds n /\ k' = k + c /\ c <= Z.to_nat (n * 2)
              /\ (forall j, j < c -> sample lm (k + j) <> Raised)
              /\ subseq preds (cleaned lm input_text k c)
              /\ Forall (fun x => x <> []) preds
              /\ NoDup preds)).
Proof.
  unfold generate_predictions.
  destruct (model self); [| exists [], k; split; auto].
  destruct (tokenizer self); [| exists [], k; split; auto].
  unfold try_except, bind, encode, ret.
  destruct (encode_raises lm); [exists [], k; split; auto |].
  destruct (predictions_loop lm input_text n (Z.to_nat (n * 2)) [] k)
    as [[preds |] k'] eqn:Hrun.
  - apply predictions_loop_ret in Hrun.
    destruct Hrun as (c & added & -> & Hc & -> & Hs & Hsub & Hne & Hnd).
    simpl in *.
    exists (slice_to added n), (k + c). split; [reflexivity |].
    right. right. exists added, c.
    repeat split; auto. apply Hnd. constructor.
  - apply predictions_loop_exn in Hrun.
    destruct Hrun as (c & -> & Hc & Hr & Hs).
    exists [], (k + S c). split; [reflexivity |].
    right. left. split; auto. exists c. auto.
Qed.

Lemma generate_stories_run (n : Z) (k : nat) :
  exists r k',
    generate_stories lm input_text n k = (Ret r, k')
    /\ ((r = [] /\ k' = k)
        \/ (r = [] /\ exists c,
              k' = k + S c /\ S c <= Z.to_nat (n * 2)
              /\ sample lm (k + c) = Raised
              /\ (forall j, j < c -> sample lm (k + j) <> Raised))
        \/ (exists stories,
              r = slice_to stories n /\ k' = k + Z.to_nat (n * 2)
              /\ (forall j, j < Z.to_nat (n * 2) -> sample lm (k + j) <> Raised)
              /\ subseq stories
                   (story_candidates input_text
                      (decoded_texts lm k (Z.to_nat (n * 2))))
              /\ NoDup stories)).
Proof.
  unfold generate_stories, try_except, bind, encode, ret.
  destruct (encode_raises lm); [exists [], k; split; auto |].
  destruct (stories_loop lm input_text (Z.to_nat (n * 2)) [] k)
    as [[stories |] k'] eqn:Hrun.
  - apply stories_loop_ret in Hrun.
    destruct Hrun as (added & -> & -> & Hs & Hsub & Hnd).
    simpl in *.
    exists (slice_to added n), (k + Z.to_nat (n * 2)).
    split; [reflexivity |].
    right. right. exists added.
    repeat split; auto. apply Hnd. constructor.
  - apply stories_loop_exn in Hrun.
    destruct Hrun as (c & -> & Hc & Hr & Hs).
    exists [], (k + S c). split; [reflexivity |].
    right. left. split; auto. exists c. auto.
Qed.

(** The attempt budget, both modes: never more than [2 * n] calls. *)
Lemma generate_predictions_budget (self : NextSentencePredictor) (n : Z) (k : nat) :
  k <= snd (generate_predictions self lm input_text n k) <= k + Z.to_nat (n * 2).
Proof.
  destruct (generate_predictions_run self n k)
    as (r & k' & -> & [[_ ->] | [[_ (c & -> & Hc & _)] | (p & c & _ & -> & Hc & _)]]);
    simpl; lia.
Qed.

Lemma generate_stories_budget (n : Z) (k : nat) :
  k <= snd (generate_stories lm input_text n k) <= k + Z.to_nat (n * 2).
Proof.
  destruct (generate_stories_run n k)
    as (r & k' & -> & [[_ ->] | [[_ (c & -> & Hc & _)] | (p & _ & -> & _)]]);
    simpl; lia.
Qed.

(** The early stop of the single-sentence loop: before each call but the
    first, fewer than [n] candidates had been collected. *)
Lemma predictions_loop_stops_early (n : Z) :
  forall iters preds k r k',
    predictions_loop lm input_text n iters preds k = (Ret r, k') ->
    forall i, 0 < i < k' - k ->
      exists p, predictions_loop lm input_text n i preds k = (Ret p, k + i)
                /\ (Z.of_nat (length p) < n)%Z.
Proof.
  induction iters as [| iters IH]; intros preds k r k' Hrun i Hi.
  - simpl in Hrun. unfold ret in Hrun. inversion Hrun; subst. lia.
  - rewrite predictions_loop_S in Hrun.
    destruct (sample lm k) as [text |] eqn:Es; [| discriminate].
    cbv zeta in Hrun.
    destruct i as [| i]; [lia |].
    rewrite predictions_loop_S, Es. cbv zeta.
    destruct (n <=? _)%Z eqn:Hn.
    + inversion Hrun; subst. lia.
    + destruct i as [| i].
      * simpl. unfold ret. eexists. split.
        { f_equal. lia. }
        apply Z.leb_gt in Hn. exact Hn.
      * destruct (IH _ _ _ _ Hrun (S i)) as (p & Hp & Hlen); [lia |].
        exists p. split; [| exact Hlen].
        rewrite Hp. f_equal. lia.
Qed.

End Requests.

(** C1, as amended: an error of one attempt is caught inside the
    orchestrator and never reaches the caller, in both modes; but it ends
    the request: the answer is the empty list, whatever had been accepted,
    and the failing call is the last one made.  A failing [encode] gives
    the empty list before any sampling. *)
Theorem attempt_failure_ends_request
    (self : NextSentencePredictor) (lm : LM) (input_text : str) (n : Z)
    (k : nat) :
  (exists r k',
      generate_predictions self lm input_text n k = (Ret r, k')
      /\ (forall j, k <= j < k' -> sample lm j = Raised -> r = [] /\ k' = S j)
      /\ (encode_raises lm = true -> r = [] /\ k' = k))
  /\ (exists r k',
      generate_stories lm input_text n k = (Ret r, k')
      /\ (forall j, k <= j < k' -> sample lm j = Raised -> r = [] /\ k' = S j)
      /\ (encode_raises lm = true -> r = [] /\ k' = k)).
Proof.
  assert (Hlast : forall c k' j (r : list str),
    k' = k + S c -> sample lm (k + c) = Raised ->
    (forall i, i < c -> sample lm (k + i) <> Raised) ->
    k <= j < k' -> sample lm j = Raised -> r = [] -> r = [] /\ k' = S j).
  { intros c k' j r -> Hr Hs Hj Hraise ->. split; [reflexivity |].
    destruct (Nat.lt_ge_cases (j - k) c) as [Hlt | Hge].
    - exfalso. apply (Hs (j - k) Hlt).
      replace (k + (j - k)) with j by lia. exact Hraise.
    - lia. }
  assert (Hnone : forall c k' j (r : list str),
    k' = k + c -> (forall i, i < c -> sample lm (k + i) <> Raised) ->
    k <= j < k' -> sample lm j = Raised -> False).
  { intros c k' j r -> Hs Hj Hraise.
    apply (Hs (j - k)); [lia |].
    replace (k + (j - k)) with j by lia. exact Hraise. }
  split.
  - destruct (generate_predictions_run lm input_text self n k)
      as (r & k' & Hrun & Hcases).
    exists r, k'. split; [exact Hrun |]. split.
    + intros j Hj Hraise.
      destruct Hcases as [[-> ->] | [[-> (c & Hk & _ & Hr & Hs)]
                                    | (p & c & _ & Hk & _ & Hs & _)]].
      * lia.
      * eapply Hlast; eauto.
      * exfalso. eapply (Hnone c k' j r); eauto.
    + intro He. unfold generate_predictions in Hrun.
      destruct (model self); [| inversion Hrun; auto].
      destruct (tokenizer self); [| inversion Hrun; auto].
      unfold try_except, bind, encode, ret in Hrun.
      rewrite He in Hrun. inversion Hrun; subst. auto.
  - destruct (generate_stories_run lm input_text n k)
      as (r & k' & Hrun & Hcases).
    exists r, k'. split; [exact Hrun |]. split.
    + intros j Hj Hraise.
      destruct Hcases as [[-> ->] | [[-> (c & Hk & _ & Hr & Hs)]
                                    | (p & _ & Hk & Hs & _)]].
      * lia.
      * eapply Hlast; eauto.
      * exfalso. eapply (Hnone _ k' j r); eauto.
    + intro He. unfold generate_stories, try_except, bind, encode, ret in Hrun.
      rewrite He in Hrun. inversion Hrun; subst. auto.
Qed.

(** C1, as stated, fails: with a budget of four attempts, the first
    attempt yields the acceptable candidate "buy milk and bread", the
    second raises; the answer is empty and no third attempt is made. *)
Lemma failed_attempt_drops_accepted_candidate :
  let lm := Samples.lm_then_raise Samples.raw_bread in
  Z.to_nat (2 * 2) = 4
  /\ sample lm 0 = Decoded Samples.raw_bread
  /\ clean_generated_text Samples.raw_bread Samples.store
     = lit "buy milk and bread"
  /\ acceptable (lit "buy milk and bread") [] = true
  /\ sample lm 1 = Raised
  /\ generate_predictions Samples.loaded lm Samples.store 2 0 = (Ret [], 2)
  /\ ~ In (lit "buy milk and bread")
         (match fst (generate_predictions Samples.loaded lm Samples.store 2 0)
          with Ret r => r | Exn => [] end).
Proof.
  repeat split; try (vm_compute; reflexivity).
  vm_compute. tauto.
Qed.

Lemma attempt_failure_ends_request_witness :
  exists r k',
    generate_predictions Samples.loaded
      (Samples.lm_then_raise Samples.raw_bread) Samples.store 2 0 = (Ret r, k')
    /\ r = [] /\ k' = 2.
Proof.
  destruct (attempt_failure_ends_request Samples.loaded
              (Samples.lm_then_raise Samples.raw_bread) Samples.store 2 0)
    as [(r & k' & Hrun & Hraise & _) _].
  exists r, k'. split; [exact Hrun |].
  assert (E : generate_predictions Samples.loaded
                (Samples.lm_then_raise Samples.raw_bread) Samples.store 2 0
              = (Ret [], 2)) by (vm_compute; reflexivity).
  rewrite E in Hrun. inversion Hrun; subst.
  apply (Hraise 1); [lia | reflexivity].
Defined.

(** ** The attempt budget and the early stop *)

(** Story mode runs its whole budget whenever no call raises. *)
Lemma generate_stories_runs_whole_budget (lm : LM) (input_text : str)
    (n : Z) (k : nat) :
  encode_raises lm = false ->
  (forall j, sample lm j <> Raised) ->
  snd (generate_stories lm input_text n k) = k + Z.to_nat (n * 2).
Proof.
  intros He Hs.
  unfold generate_stories, try_except, bind, encode, ret. rewrite He.
  destruct (stories_loop lm input_text (Z.to_nat (n * 2)) [] k)
    as [[stories |] k'] eqn:Hrun.
  - apply stories_loop_ret in Hrun. destruct Hrun as (a & -> & _).
    reflexivity.
  - apply stories_loop_exn in Hrun. destruct Hrun as (c & _ & _ & Hr & _).
    now elim (Hs (k + c)).
Qed.

(** C2 at a failing input: one story is asked for and the first attempt
    already yields it, yet [generate_stories] samples a second time, where
    [generate_predictions] stops after one call; and when that second call
    raises, the story that was already collected is lost. *)
Theorem stories_loop_has_no_early_stop :
  let story :=
    lit "there was a small village by the sea. The people there were fishermen and farmers. They lived." in
  stories_loop (Samples.lm_const Samples.raw_once) Samples.once 1 [] 0
  = (Ret [story], 1)
  /\ generate_stories (Samples.lm_const Samples.raw_once) Samples.once 1 0
     = (Ret [story], 2)
  /\ generate_predictions Samples.loaded (Samples.lm_const Samples.raw_bread)
       Samples.store 1 0
     = (Ret [lit "buy milk and bread"], 1)
  /\ generate_stories (Samples.lm_then_raise Samples.raw_once) Samples.once 1 0
     = (Ret [], 2).
Proof. repeat split; vm_compute; reflexivity. Qed.

(** ** Removing the echoed prompt *)

Lemma startswith_app (p rest : str) : startswith (p ++ rest) p = true.
Proof.
  induction p as [| a p IH]; simpl; [reflexivity |].
  destruct (ascii_dec a a); [exact IH | congruence].
Qed.

Lemma startswith_prefix (s p : str) :
  startswith s p = true <-> exists rest, s = p ++ rest.
Proof.
  split.
  - revert s. induction p as [| a p IH]; intros s H.
    + exists s. reflexivity.
    + destruct s as [| b s]; simpl in H; [discriminate |].
      destruct (ascii_dec a b) as [-> |]; [| discriminate].
      destruct (IH s H) as [rest ->]. exists rest. reflexivity.
  - intros [rest ->]. apply startswith_app.
Qed.

Lemma skipn_prefix (p rest : str) : skipn (length p) (p ++ rest) = rest.
Proof. induction p; simpl; auto. Qed.

(** Single-sentence mode cuts the prompt off only behind the exact prefix
    test, and leaves the text as it is otherwise. *)
Lemma remove_input_spec (text input_text : str) :
  (forall rest, text = input_text ++ rest ->
                remove_input text input_text = strip rest)
  /\ ((forall rest, text <> input_text ++ rest) ->
      remove_input text input_text = text).
Proof.
  unfold remove_input. split.
  - intros rest ->. now rewrite startswith_app, skipn_prefix.
  - intro H. destruct (startswith text input_text) eqn:E; [| reflexivity].
    apply startswith_prefix in E. destruct E as [rest E].
    now elim (H rest).
Qed.

(** C3 at a failing input: the decoded text does not start with the prompt
    (decoding tidied the spaces before the commas), single-sentence mode
    keeps the text whole, story mode still cuts [len(input_text)]
    characters off and the story starts in the middle of the word
    "again". *)
Theorem story_mode_slices_without_prefix_test :
  startswith Samples.raw_oh_no Samples.oh_no = false
  /\ remove_input Samples.raw_oh_no Samples.oh_no = Samples.raw_oh_no
  /\ new_text_of Samples.raw_oh_no Samples.oh_no
     = lit "gain said the old man by the door. The rain had started an hour before. Nobody answered"
  /\ generate_stories (Samples.lm_const Samples.raw_oh_no) Samples.oh_no 1 0
     = (Ret [lit "gain said the old man by the door. The rain had started an hour before. Nobody answered."], 2).
Proof. repeat split; vm_compute; reflexivity. Qed.

(** ** Facts on the string operations *)

Section CharInvariants.

Variable P : ascii -> Prop.

Lemma Forall_lstrip (s : str) : Forall P s -> Forall P (lstrip s).
Proof.
  induction 1 as [| c s Hc Hs IH]; simpl; [constructor |].
  destruct (isspace c); [exact IH | now constructor].
Qed.

Lemma Forall_strip (s : str) : Forall P s -> Forall P (strip s).
Proof.
  intro H. unfold strip, rstrip.
  apply Forall_rev, Forall_lstrip, Forall_rev, Forall_lstrip, H.
Qed.

Lemma Forall_split (s : str) : Forall P s -> Forall (Forall P) (split s).
Proof.
  induction 1 as [| c s Hc Hs IH]; simpl; [constructor |].
  destruct (isspace c); [exact IH |].
  destruct s as [| c' s'].
  - repeat constructor. exact Hc.
  - destruct (isspace c').
    + constructor; [repeat constructor; exact Hc | exact IH].
    + destruct (split (c' :: s')) as [| w ws].
      * repeat constructor. exact Hc.
      * inversion IH; subst. constructor; [now constructor | assumption].
Qed.

Lemma Forall_removelast {A} (Q : A -> Prop) (l : list A) :
  Forall Q l -> Forall Q (removelast l).
Proof.
  induction 1 as [| x l Hx Hl IH]; simpl; [constructor |].
  destruct l; [constructor | now constructor].
Qed.

Lemma Forall_join (sep : str) (parts : list str) :
  Forall P sep -> Forall (Forall P) parts -> Forall P (join sep parts).
Proof.
  intros Hsep. induction 1 as [| p ps Hp Hps IH]; simpl; [constructor |].
  destruct ps; [exact Hp |].
  apply Forall_app. split; [exact Hp |].
  apply Forall_app. split; [exact Hsep | exact IH].
Qed.

End CharInvariants.

Lemma terminator_not_space (c : ascii) :
  is_terminator c = true -> isspace c = false.
Proof.
  unfold is_terminator, isspace, between. cbv zeta.
  rewrite !orb_true_iff, !Nat.eqb_eq.
  intros [[-> | ->] | ->]; reflexivity.
Qed.

Lemma first_segment_no_terminator (s : str) : no_terminator (first_segment s).
Proof.
  induction s as [| c s IH]; simpl; [constructor |].
  destruct (is_terminator c) eqn:E; constructor; assumption.
Qed.

(** The text is its first segment followed by nothing or by a terminator. *)
Lemma first_segment_rest (s : str) :
  exists rest, s = first_segment s ++ rest
               /\ (rest = [] \/ exists t r, rest = t :: r /\ is_terminator t = true).
Proof.
  induction s as [| c s (rest & IH & Hrest)]; simpl.
  - exists []. auto.
  - destruct (is_terminator c) eqn:E.
    + exists (c :: s). split; [reflexivity |]. right. eauto.
    + exists rest. split; [simpl; now f_equal | exact Hrest].
Qed.

(** [re.split] starts with the first segment. *)
Lemma re_split_first (s : str) :
  exists segs, re_split s = first_segment s :: segs.
Proof.
  induction s as [| c s (segs & IH)]; simpl.
  - eauto.
  - destruct (is_terminator c) eqn:E.
    + destruct s as [| c' s']; [eauto |].
      destruct (is_terminator c') eqn:E'; [| eauto].
      rewrite IH. simpl. rewrite E'. eauto.
    + rewrite IH. eauto.
Qed.

Lemma lstrip_nil_all_space (s : str) :
  lstrip s = [] <-> forallb isspace s = true.
Proof.
  induction s as [| c s IH]; simpl; [tauto |].
  destruct (isspace c); simpl; [exact IH | split; discriminate].
Qed.

Lemma lstrip_head (s : str) (c : ascii) (r : str) :
  lstrip s = c :: r -> isspace c = false.
Proof.
  induction s as [| a s IH]; simpl; [discriminate |].
  destruct (isspace a) eqn:E; [exact IH |].
  intro H. inversion H; subst. exact E.
Qed.

Lemma lstrip_app_nonspace (a : str) (c : ascii) :
  isspace c = false -> lstrip (a ++ [c]) = lstrip a ++ [c].
Proof.
  intro Hc. induction a as [| x a IH]; simpl.
  - now rewrite Hc.
  - destruct (isspace x); [exact IH | reflexivity].
Qed.

Lemma lstrip_all_space_app (a b : str) :
  forallb isspace a = true -> lstrip (a ++ b) = lstrip b.
Proof.
  induction a as [| x a IH]; simpl; [reflexivity |].
  intro H. apply andb_true_iff in H. destruct H as [Hx Ha].
  rewrite Hx. auto.
Qed.

Lemma rstrip_cons_nonspace (c : ascii) (r : str) :
  isspace c = false -> rstrip (c :: r) = c :: rstrip r.
Proof.
  intro Hc. unfold rstrip. simpl.
  rewrite (lstrip_app_nonspace _ _ Hc), rev_app_distr. reflexivity.
Qed.

Lemma forallb_rev {A} (f : A -> bool) (l : list A) :
  forallb f (rev l) = forallb f l.
Proof.
  induction l as [| x l IH]; simpl; [reflexivity |].
  rewrite forallb_app, IH. simpl. rewrite andb_true_r. apply andb_comm.
Qed.

Lemma rstrip_nil_all_space (s : str) :
  rstrip s = [] <-> forallb isspace s = true.
Proof.
  unfold rstrip. rewrite <- forallb_rev, <- lstrip_nil_all_space.
  split; intro H.
  - apply (f_equal (@rev ascii)) in H. now rewrite rev_involutive in H.
  - now rewrite H.
Qed.

Lemma lstrip_all_space (s : str) :
  forallb isspace s = true -> forallb isspace (lstrip s) = true.
Proof. intro H. apply lstrip_nil_all_space in H. now rewrite H. Qed.

(** A text trims to nothing exactly when it is all whitespace. *)
Lemma strip_nil_all_space (s : str) :
  strip s = [] <-> forallb isspace s = true.
Proof.
  unfold strip. rewrite rstrip_nil_all_space. split.
  - intro H. induction s as [| c s IH]; simpl in *; [reflexivity |].
    destruct (isspace c) eqn:E; simpl; [auto |].
    simpl in H. rewrite E in H. discriminate.
  - apply lstrip_all_space.
Qed.

(** A trimmed text that is not empty ends, and so holds, a character that
    is not whitespace. *)
Lemma strip_not_all_space (s : str) :
  strip s <> [] -> forallb isspace (strip s) = false.
Proof.
  intro H. unfold strip, rstrip in *.
  destruct (lstrip (rev (lstrip s))) as [| c r] eqn:E; [now elim H |].
  apply lstrip_head in E. simpl.
  rewrite forallb_app. simpl. rewrite E, andb_false_r. reflexivity.
Qed.

Lemma split_nil_all_space (s : str) :
  split s = [] -> forallb isspace s = true.
Proof.
  induction s as [| c s IH]; simpl; [reflexivity |].
  destruct (isspace c); simpl; [exact IH |].
  destruct s as [| c' s']; [discriminate |].
  destruct (isspace c'); [discriminate |].
  destruct (split (c' :: s')); discriminate.
Qed.

Lemma split_words_nonempty (s : str) : Forall (fun w => w <> []) (split s).
Proof.
  induction s as [| c s IH]; simpl; [constructor |].
  destruct (isspace c); [exact IH |].
  destruct s as [| c' s']; [repeat constructor; discriminate |].
  destruct (isspace c').
  - constructor; [discriminate | exact IH].
  - destruct (split (c' :: s')) as [| w ws];
      [repeat constructor; discriminate |].
    inversion IH; subst. constructor; [discriminate | assumption].
Qed.

Lemma last_In {A} (l : list A) (d : A) : l <> [] -> In (last l d) l.
Proof.
  induction l as [| x l IH]; [congruence |]. intros _.
  destruct l as [| y l]; [now left |].
  right. apply IH. discriminate.
Qed.

(** On a word, "not [isalpha]" is "holds a non-alphabetic character". *)
Lemma isalpha_existsb (w : str) :
  w <> [] ->
  negb (isalpha w) = existsb (fun c => negb (isalpha_char c)) w.
Proof.
  intro H. destruct w as [| c w]; [now elim H |].
  unfold isalpha. clear H. generalize (c :: w). intro l.
  induction l as [| x l IH]; simpl; [reflexivity |].
  rewrite negb_andb, IH. reflexivity.
Qed.

Lemma drop_incomplete_spec (words : list str) :
  words <> [] -> Forall (fun w => w <> []) words ->
  drop_incomplete words = spec_repair words.
Proof.
  intros Hne Hall. unfold drop_incomplete, spec_repair. cbv zeta.
  rewrite isalpha_existsb; [reflexivity |].
  eapply (proj1 (Forall_forall _ _) Hall). now apply last_In.
Qed.

(** ** The single-sentence filter *)

(** [clean_generated_text] read off the text: the words of the trimmed
    first segment when that is not blank, the whole trimmed text when it
    is.  The branch for an empty word list is never taken. *)
Lemma clean_generated_text_cases (text input_text : str) :
  clean_generated_text text input_text =
  let t := remove_input text input_text in
  let seg := strip (first_segment t) in
  if is_empty seg then strip t
  else join space (drop_incomplete (split seg)).
Proof.
  unfold clean_generated_text. cbv zeta.
  destruct (re_split_first (remove_input text input_text)) as [segs ->].
  destruct (is_empty (strip (first_segment (remove_input text input_text))))
    eqn:E; simpl; [reflexivity |].
  destruct (split (strip (first_segment (remove_input text input_text))))
    as [| w ws] eqn:Ew; [| reflexivity].
  exfalso. apply split_nil_all_space in Ew.
  rewrite strip_not_all_space in Ew; [discriminate |].
  intro H. rewrite H in E. discriminate.
Qed.

(** C7, as amended: when the first terminator-delimited segment of the
    prompt-stripped text is not blank, [clean_generated_text] is the
    specification's single-sentence policy (that segment's words, the last
    one dropped when it is shorter than 2 characters or holds a
    non-alphabetic character, joined by single spaces); when it is blank
    the whole trimmed text is returned.  A trailing "br3ad" is dropped
    ("buy milk and"), a trailing "bread" is kept. *)
Theorem clean_generated_text_first_segment (text input_text : str) :
  let t := remove_input text input_text in
  (strip (first_segment t) <> [] ->
   spec_single_sentence t = Some (clean_generated_text text input_text))
  /\ (strip (first_segment t) = [] ->
      clean_generated_text text input_text = strip t)
  /\ clean_generated_text Samples.raw_br3ad Samples.store = lit "buy milk and"
  /\ clean_generated_text Samples.raw_bread Samples.store
     = lit "buy milk and bread".
Proof.
  cbv zeta. split; [| split; [| split; vm_compute; reflexivity]].
  - intro Hne. rewrite clean_generated_text_cases. cbv zeta.
    set (t := remove_input text input_text) in *.
    assert (He : is_empty (strip (first_segment t)) = false).
    { destruct (strip (first_segment t)); [now elim Hne | reflexivity]. }
    unfold spec_single_sentence, spec_segments.
    destruct (re_split_first t) as [segs ->].
    cbn [map filter]. rewrite He. cbn [negb].
    f_equal. f_equal.
    symmetry. apply drop_incomplete_spec; [| apply split_words_nonempty].
    intro Hw. apply split_nil_all_space in Hw.
    rewrite strip_not_all_space in Hw; [discriminate | exact Hne].
  - intro He. rewrite clean_generated_text_cases. cbv zeta.
    now rewrite He.
Qed.

Lemma clean_generated_text_first_segment_witness :
  spec_single_sentence (remove_input Samples.raw_bread Samples.store)
  = Some (clean_generated_text Samples.raw_bread Samples.store).
Proof.
  apply (clean_generated_text_first_segment Samples.raw_bread Samples.store).
  vm_compute. discriminate.
Defined.

(** C7, as stated, fails: the continuation starts with "...", so the first
    non-empty segment is " and then he went home"; the code returns the
    whole trimmed continuation, dots included. *)
Lemma clean_generated_text_blank_first_segment :
  spec_single_sentence (remove_input Samples.raw_dots Samples.store)
  = Some (lit "and then he went home")
  /\ clean_generated_text Samples.raw_dots Samples.store
     = lit "... and then he went home"
  /\ Some (clean_generated_text Samples.raw_dots Samples.store)
     <> spec_single_sentence (remove_input Samples.raw_dots Samples.store).
Proof.
  repeat split; try (vm_compute; reflexivity).
  vm_compute. discriminate.
Qed.

Lemma space_no_terminator : no_terminator space.
Proof. repeat constructor. Qed.

(** A cleaned text is empty, or free of terminators, or starts with one. *)
Lemma clean_generated_text_terminators (text input_text : str) :
  let c := clean_generated_text text input_text in
  c = [] \/ no_terminator c
  \/ exists t r, c = t :: r /\ is_terminator t = true.
Proof.
  cbv zeta. rewrite clean_generated_text_cases. cbv zeta.
  set (t := remove_input text input_text).
  destruct (is_empty (strip (first_segment t))) eqn:E.
  - apply is_empty_true, strip_nil_all_space in E.
    destruct (first_segment_rest t) as (rest & Et & Hrest).
    remember (first_segment t) as fs eqn:Hfs. clear Hfs.
    rewrite Et. unfold strip.
    rewrite (lstrip_all_space_app _ _ E).
    destruct Hrest as [-> | (t0 & r & -> & Ht)].
    + left. reflexivity.
    + right. right. pose proof (terminator_not_space _ Ht) as Hs.
      simpl. rewrite Hs. rewrite (rstrip_cons_nonspace _ _ Hs). eauto.
  - right. left. apply Forall_join; [apply space_no_terminator |].
    assert (Hw : Forall no_terminator (split (strip (first_segment t)))).
    { apply Forall_split, Forall_strip, first_segment_no_terminator. }
    unfold drop_incomplete.
    destruct (_ || _); [now apply Forall_removelast | exact Hw].
Qed.

(** C4, as amended: a candidate returned in single-sentence mode holds no
    terminator, unless it starts with one: that is the continuation whose
    first segment is blank, returned whole. *)
Theorem accepted_sentence_terminators
    (self : NextSentencePredictor) (lm : LM) (input_text : str) (n : Z)
    (k k' : nat) (r : list str) (c : str) :
  generate_predictions self lm input_text n k = (Ret r, k') ->
  In c r ->
  no_terminator c \/ exists t rest, c = t :: rest /\ is_terminator t = true.
Proof.
  intros Hrun Hin.
  destruct (generate_predictions_run lm input_text self n k)
    as (r0 & k0 & Hrun0 & Hcases).
  rewrite Hrun in Hrun0. inversion Hrun0; subst r0 k0.
  destruct Hcases as [[-> _] | [[-> _] | (p & c0 & -> & _ & _ & _ & Hsub & Hne & _)]];
    try contradiction.
  apply (subseq_In _ _ _ (slice_to_subseq p n)) in Hin.
  assert (Hc : c <> []).
  { eapply (proj1 (Forall_forall _ _) Hne). exact Hin. }
  apply (subseq_In _ _ _ Hsub) in Hin.
  unfold cleaned in Hin. apply in_map_iff in Hin.
  destruct Hin as (text & <- & _).
  destruct (clean_generated_text_terminators text input_text)
    as [H | [H | H]]; auto.
  now elim Hc.
Qed.

Lemma accepted_sentence_terminators_witness :
  no_terminator (lit "buy milk and bread")
  \/ exists t rest, lit "buy milk and bread" = t :: rest
                    /\ is_terminator t = true.
Proof.
  apply (accepted_sentence_terminators Samples.loaded
           (Samples.lm_const Samples.raw_bread) Samples.store 3 0 6
           [lit "buy milk and bread"]).
  - vm_compute. reflexivity.
  - simpl. left. reflexivity.
Defined.

(** C4, as stated, fails: the continuation "... and then he went home" is
    accepted whole (six words, 25 characters) and holds three periods. *)
Lemma accepted_sentence_with_terminator :
  generate_predictions Samples.loaded (Samples.lm_const Samples.raw_dots)
    Samples.store 1 0
  = (Ret [lit "... and then he went home"], 1)
  /\ existsb is_terminator (lit "... and then he went home") = true.
Proof. split; vm_compute; reflexivity. Qed.

(** ** The prompt in the candidates *)

Lemma remove_input_echo (input_text rest : str) :
  remove_input (input_text ++ rest) input_text = remove_input rest [].
Proof.
  unfold remove_input. now rewrite startswith_app, skipn_prefix.
Qed.

Lemma clean_generated_text_echo (input_text rest : str) :
  clean_generated_text (input_text ++ rest) input_text
  = clean_generated_text rest [].
Proof.
  unfold clean_generated_text. now rewrite remove_input_echo.
Qed.

Lemma new_text_of_echo (input_text rest : str) :
  new_text_of (input_text ++ rest) input_text = new_text_of rest [].
Proof. unfold new_text_of. now rewrite skipn_prefix. Qed.

Lemma predictions_loop_echo (conts : LM) (input_text : str) (n : Z) :
  forall iters preds k,
    predictions_loop (echoing input_text conts) input_text n iters preds k
    = predictions_loop conts [] n iters preds k.
Proof.
  induction iters as [| iters IH]; intros preds k; [reflexivity |].
  rewrite !predictions_loop_S.
  change (sample (echoing input_text conts) k)
    with (echo input_text (sample conts k)).
  destruct (sample conts k) as [rest |]; simpl echo; [| reflexivity].
  cbv beta iota zeta. rewrite clean_generated_text_echo.
  destruct (n <=? _)%Z; [reflexivity | apply IH].
Qed.

Lemma stories_loop_echo (conts : LM) (input_text : str) :
  forall iters stories k,
    stories_loop (echoing input_text conts) input_text iters stories k
    = stories_loop conts [] iters stories k.
Proof.
  induction iters as [| iters IH]; intros stories k; [reflexivity |].
  rewrite !stories_loop_S.
  change (sample (echoing input_text conts) k)
    with (echo input_text (sample conts k)).
  destruct (sample conts k) as [rest |]; simpl echo; [| reflexivity].
  cbv beta iota. rewrite new_text_of_echo. apply IH.
Qed.

(** C5, as amended: when the decoded texts begin with the prompt, that one
    leading occurrence is removed before filtering, in both modes: the
    answer is the one obtained from the continuations alone, whatever the
    prompt.  Whether a candidate begins with the prompt's text is then up
    to the continuation. *)
Theorem prompt_echo_removed_once
    (self : NextSentencePredictor) (conts : LM) (input_text : str) (n : Z)
    (k : nat) :
  generate_predictions self (echoing input_text conts) input_text n k
  = generate_predictions self conts [] n k
  /\ generate_stories (echoing input_text conts) input_text n k
     = generate_stories conts [] n k.
Proof.
  split.
  - unfold generate_predictions.
    destruct (model self); [| reflexivity].
    destruct (tokenizer self); [| reflexivity].
    unfold try_except, bind, encode.
    change (encode_raises (echoing input_text conts))
      with (encode_raises conts).
    destruct (encode_raises conts); [reflexivity |].
    now rewrite predictions_loop_echo.
  - unfold generate_stories, try_except, bind, encode.
    change (encode_raises (echoing input_text conts))
      with (encode_raises conts).
    destruct (encode_raises conts); [reflexivity |].
    now rewrite stories_loop_echo.
Qed.

(** C5, as stated, fails in both modes: the continuation repeats the
    prompt, and the returned candidate begins with it. *)
Lemma candidate_begins_with_prompt :
  generate_predictions Samples.loaded (Samples.lm_const Samples.raw_go)
    Samples.go 1 0
  = (Ret [lit "go go go home now okay"], 1)
  /\ startswith (lit "go go go home now okay") Samples.go = true
  /\ generate_stories (Samples.lm_const Samples.raw_once_twice)
       Samples.once 1 0
     = (Ret [lit "Once upon a time there was a small village by the sea. The people there were fishermen. They lived."], 2)
  /\ startswith
       (lit "Once upon a time there was a small village by the sea. The people there were fishermen. They lived.")
       Samples.once = true.
Proof. repeat split; vm_compute; reflexivity. Qed.

(** ** The story filter *)

Lemma spec_segments_nonblank (text : str) :
  spec_segments text = map strip (filter nonblank (re_split text)).
Proof.
  unfold spec_segments. induction (re_split text) as [| s l IH]; simpl;
    [reflexivity |].
  unfold nonblank at 1. destruct (is_empty (strip s)); simpl; now rewrite IH.
Qed.

Lemma firstn_filter_all {A} (f : A -> bool) (n : nat) (l : list A) :
  Forall (fun x => f x = true) (firstn n l) ->
  firstn n (filter f l) = filter f (firstn n l).
Proof.
  revert n. induction l as [| x l IH]; intros [| n] H; simpl in *;
    try reflexivity.
  inversion H; subst. rewrite H2. simpl. f_equal. now apply IH.
Qed.

Lemma filter_firstn_length {A} (f : A -> bool) (n : nat) (l : list A) :
  length (filter f (firstn n l)) <= length (filter f l).
Proof.
  revert n. induction l as [| x l IH]; intros [| n]; simpl; try lia.
  specialize (IH n). destruct (f x); simpl; lia.
Qed.

(** C8, as amended: story mode keeps the non-blank ones among the first
    four terminator-delimited pieces of the text (a blank piece uses up one
    of the four), needs at least two of them, and rejoins them with ". "
    and a final ".".  Where none of the first four pieces is blank this is
    the specification's policy; and a text with at most one non-empty
    segment gives no story. *)
Theorem clean_story_segments (new_text : str) :
  clean_story new_text
  = (if 2 <=? length (kept_segments new_text)
     then Some (join period_space (kept_segments new_text) ++ period)
     else None)
  /\ length (kept_segments new_text) <= 4
  /\ (Forall (fun s => nonblank s = true) (firstn 4 (re_split new_text)) ->
      clean_story new_text = spec_story new_text)
  /\ (length (spec_segments new_text) <= 1 -> clean_story new_text = None).
Proof.
  assert (Hlen : length (kept_segments new_text)
                 <= length (firstn 4 (re_split new_text))).
  { unfold kept_segments. rewrite length_map. apply filter_length_le. }
  assert (Hcode : clean_story new_text
    = (if 2 <=? length (kept_segments new_text)
       then Some (join period_space (kept_segments new_text) ++ period)
       else None)).
  { unfold clean_story. cbv zeta. fold nonblank. fold (kept_segments new_text).
    destruct (2 <=? length (re_split new_text)) eqn:E; [reflexivity |].
    apply Nat.leb_gt in E.
    pose proof (firstn_le_length 4 (re_split new_text)) as H4.
    rewrite length_firstn in Hlen.
    destruct (2 <=? length (kept_segments new_text)) eqn:E2; [| reflexivity].
    apply Nat.leb_le in E2. lia. }
  split; [exact Hcode |]. split; [| split].
  - pose proof (firstn_le_length 4 (re_split new_text)). lia.
  - intro Hall. rewrite Hcode. unfold spec_story. cbv zeta.
    rewrite spec_segments_nonblank, firstn_map, (firstn_filter_all _ _ _ Hall).
    reflexivity.
  - intro H1. rewrite Hcode.
    assert (length (kept_segments new_text) <= 1).
    { unfold kept_segments. rewrite length_map.
      rewrite spec_segments_nonblank, length_map in H1.
      pose proof (filter_firstn_length nonblank 4 (re_split new_text)). lia. }
    destruct (2 <=? length (kept_segments new_text)) eqn:E2; [| reflexivity].
    apply Nat.leb_le in E2. lia.
Qed.

Lemma clean_story_segments_witness :
  clean_story (new_text_of Samples.raw_once Samples.once)
  = spec_story (new_text_of Samples.raw_once Samples.once)
  /\ clean_story (lit "It was the only thing anyone in the village ever said")
     = None.
Proof.
  split.
  - apply (clean_story_segments (new_text_of Samples.raw_once Samples.once)).
    vm_compute. repeat constructor.
  - apply (clean_story_segments
             (lit "It was the only thing anyone in the village ever said")).
    vm_compute. lia.
Defined.

(** C8, as stated, fails: the continuation starts with "...", the blank
    piece before it is one of the four that are looked at, and the story
    has three sentences where the first four non-empty segments give
    four. *)
Lemma clean_story_counts_blank_piece :
  clean_story (new_text_of Samples.raw_knock Samples.once)
  = Some (lit "The village was quiet that night. Nobody dared to walk outside. The wind howled.")
  /\ spec_story (new_text_of Samples.raw_knock Samples.once)
     = Some (lit "The village was quiet that night. Nobody dared to walk outside. The wind howled. Then came the knock.")
  /\ clean_story (new_text_of Samples.raw_knock Samples.once)
     <> spec_story (new_text_of Samples.raw_knock Samples.once)
  /\ generate_stories (Samples.lm_const Samples.raw_knock) Samples.once 1 0
     = (Ret [lit "The village was quiet that night. Nobody dared to walk outside. The wind howled."], 2).
Proof.
  repeat split; try (vm_compute; reflexivity).
  vm_compute. discriminate.
Qed.

(** * Further properties of the code *)

(** ** Trimming and words *)

Lemma strip_ends (s : str) :
  strip s = []
  \/ ((exists c r, strip s = c :: r /\ isspace c = false)
      /\ (exists r c, strip s = r ++ [c] /\ isspace c = false)).
Proof.
  unfold strip.
  destruct (lstrip s) as [| c r] eqn:El; [left; reflexivity |].
  right. pose proof (lstrip_head _ _ _ El) as Hc.
  rewrite (rstrip_cons_nonspace _ _ Hc). split; [eauto |].
  rewrite <- (rstrip_cons_nonspace _ _ Hc). unfold rstrip.
  destruct (lstrip (rev (c :: r))) as [| d v] eqn:Ev.
  - exfalso. apply lstrip_nil_all_space in Ev.
    rewrite forallb_rev in Ev. simpl in Ev. rewrite Hc in Ev. discriminate.
  - apply lstrip_head in Ev. simpl. eauto.
Qed.

Lemma strip_fixed (s : str) :
  (exists c r, s = c :: r /\ isspace c = false) ->
  (exists r c, s = r ++ [c] /\ isspace c = false) ->
  strip s = s.
Proof.
  intros (c & r & Hs & Hc) (r' & c' & Hs' & Hc').
  unfold strip.
  assert (El : lstrip s = s) by (subst s; simpl; now rewrite Hc).
  rewrite El. unfold rstrip. rewrite Hs', rev_app_distr. simpl.
  rewrite Hc'. simpl. now rewrite rev_involutive.
Qed.

Lemma strip_idempotent (s : str) : strip (strip s) = strip s.
Proof.
  destruct (strip_ends s) as [-> | [Hh Hl]]; [reflexivity |].
  now apply strip_fixed.
Qed.

Lemma is_word_cons (w : str) :
  is_word w = true ->
  exists c r, w = c :: r /\ isspace c = false
              /\ forallb (fun x => negb (isspace x)) r = true.
Proof.
  unfold is_word. destruct w as [| c r]; [discriminate |]. simpl.
  rewrite andb_true_iff, negb_true_iff. intros [Hc Hr]. eauto.
Qed.

Lemma split_words (s : str) : Forall (fun w => is_word w = true) (split s).
Proof.
  induction s as [| c s IH]; simpl; [constructor |].
  destruct (isspace c) eqn:Ec; [exact IH |].
  assert (Hc : is_word [c] = true) by (unfold is_word; simpl; now rewrite Ec).
  destruct s as [| c' s']; [repeat constructor; exact Hc |].
  destruct (isspace c').
  - constructor; [exact Hc | exact IH].
  - destruct (split (c' :: s')) as [| w ws];
      [repeat constructor; exact Hc |].
    inversion IH; subst. constructor; [| assumption].
    unfold is_word in *. simpl. rewrite Ec. simpl.
    destruct w; [discriminate | assumption].
Qed.

(** Splitting a word followed by nothing or by whitespace gives the word
    first. *)
Lemma split_word_app (w rest : str) :
  is_word w = true ->
  (rest = [] \/ exists c r, rest = c :: r /\ isspace c = true) ->
  split (w ++ rest) = w :: split rest.
Proof.
  intros Hw Hrest. apply is_word_cons in Hw.
  destruct Hw as (c & r & -> & Hc & Hr). revert c Hc.
  induction r as [| c2 r IH]; intros c Hc.
  - simpl. rewrite Hc.
    destruct Hrest as [-> | (c' & r' & -> & Hc')]; [reflexivity |].
    now rewrite Hc'.
  - simpl in Hr. apply andb_true_iff in Hr. destruct Hr as [Hc2 Hr].
    apply negb_true_iff in Hc2.
    change ((c :: c2 :: r) ++ rest) with (c :: (c2 :: r) ++ rest).
    cbn [split]. rewrite Hc.
    change ((c2 :: r) ++ rest) with (c2 :: r ++ rest) at 1.
    cbv beta iota. rewrite Hc2.
    rewrite (IH Hr c2 Hc2). reflexivity.
Qed.

Lemma isspace_space : isspace " "%char = true.
Proof. reflexivity. Qed.

(** Joining words by single spaces and splitting again gives the words
    back. *)
Lemma split_join_words (ws : list str) :
  Forall (fun w => is_word w = true) ws ->
  split (join space ws) = ws.
Proof.
  induction 1 as [| w ws Hw Hws IH]; [reflexivity |].
  destruct ws as [| w' ws'].
  - simpl. rewrite <- (app_nil_r w) at 1.
    rewrite split_word_app; auto.
  - change (join space (w :: w' :: ws'))
      with (w ++ space ++ join space (w' :: ws')).
    rewrite split_word_app; [| exact Hw |].
    + f_equal. change (space ++ join space (w' :: ws'))
        with (" "%char :: join space (w' :: ws')).
      cbn [split]. rewrite isspace_space. exact IH.
    + right. exists " "%char, (join space (w' :: ws')). auto.
Qed.

Lemma word_last (w : str) :
  is_word w = true -> exists r c, w = r ++ [c] /\ isspace c = false.
Proof.
  intro Hw. unfold is_word in Hw. apply andb_true_iff in Hw.
  destruct Hw as [Hne Hall].
  destruct (exists_last (l := w)) as (r & c & ->).
  { intro E. subst w. discriminate. }
  exists r, c. split; [reflexivity |].
  rewrite forallb_app in Hall. simpl in Hall.
  apply andb_true_iff in Hall. destruct Hall as [_ Hc].
  rewrite andb_true_r in Hc. now apply negb_true_iff.
Qed.

Lemma join_words_last (ws : list str) (w : str) :
  Forall (fun x => is_word x = true) (w :: ws) ->
  exists r c, join space (w :: ws) = r ++ [c] /\ isspace c = false.
Proof.
  revert w. induction ws as [| w' ws IH]; intros w H; inversion H; subst.
  - simpl. now apply word_last.
  - destruct (IH w' H3) as (r & c & E & Hc).
    change (join space (w :: w' :: ws))
      with (w ++ space ++ join space (w' :: ws)).
    rewrite E. exists (w ++ space ++ r), c.
    split; [now rewrite <- !app_assoc | exact Hc].
Qed.

(** Words joined by spaces are trimmed already. *)
Lemma strip_join_words (ws : list str) :
  Forall (fun w => is_word w = true) ws ->
  strip (join space ws) = join space ws.
Proof.
  intro H. destruct ws as [| w ws]; [reflexivity |].
  apply strip_fixed.
  - inversion H; subst. apply is_word_cons in H2.
    destruct H2 as (c & r & -> & Hc & _).
    destruct ws; simpl; eauto.
  - now apply join_words_last.
Qed.

(** ** More on [clean_generated_text] *)

Lemma drop_incomplete_words (words : list str) :
  Forall (fun w => is_word w = true) words ->
  Forall (fun w => is_word w = true) (drop_incomplete words).
Proof.
  intro H. unfold drop_incomplete.
  destruct (_ || _); [now apply Forall_removelast | exact H].
Qed.

(** X1: whatever the decoded text and the prompt, the cleaned text has no
    whitespace at either end. *)
Theorem clean_generated_text_trimmed (text input_text : str) :
  strip (clean_generated_text text input_text)
  = clean_generated_text text input_text.
Proof.
  rewrite clean_generated_text_cases. cbv zeta.
  destruct (is_empty _).
  - apply strip_idempotent.
  - apply strip_join_words, drop_incomplete_words, split_words.
Qed.

(** X2: when the first segment of the prompt-stripped text is not blank,
    the cleaned text is in normal form: it is its own words joined by
    single spaces, and these words are the words of that segment, all of
    them or all but the last. *)
Theorem clean_generated_text_words (text input_text : str) :
  let words := split (strip (first_segment (remove_input text input_text))) in
  let c := clean_generated_text text input_text in
  strip (first_segment (remove_input text input_text)) <> [] ->
  join space (split c) = c
  /\ (split c = words \/ split c = removelast words).
Proof.
  cbv zeta. intro Hne.
  rewrite clean_generated_text_cases. cbv zeta.
  destruct (is_empty _) eqn:E.
  { apply is_empty_true in E. now elim Hne. }
  rewrite split_join_words by apply drop_incomplete_words, split_words.
  split; [reflexivity |].
  unfold drop_incomplete. destruct (_ || _); auto.
Qed.

Lemma clean_generated_text_words_witness :
  join space (split (clean_generated_text Samples.raw_br3ad Samples.store))
  = clean_generated_text Samples.raw_br3ad Samples.store.
Proof.
  apply (clean_generated_text_words Samples.raw_br3ad Samples.store).
  vm_compute. discriminate.
Defined.

(** ** More on segmentation *)

Lemma re_split_pieces (s : str) : Forall no_terminator (re_split s).
Proof.
  induction s as [| c s IH]; simpl.
  - repeat constructor.
  - destruct (is_terminator c) eqn:E.
    + destruct s as [| c' s']; [repeat constructor |].
      destruct (is_terminator c'); [exact IH |].
      constructor; [constructor | exact IH].
    + destruct (re_split s) as [| seg segs]; [repeat constructor; exact E |].
      inversion IH; subst. constructor; [| assumption].
      constructor; assumption.
Qed.

(** X3: [re.split] on terminator runs loses the terminators and nothing
    else: every piece is free of terminators, and the pieces put together
    are the text without its terminators; a text without terminators is
    its own single piece. *)
Theorem re_split_keeps_the_rest (s : str) :
  Forall no_terminator (re_split s)
  /\ concat (re_split s) = filter (fun c => negb (is_terminator c)) s
  /\ (no_terminator s -> re_split s = [s]).
Proof.
  split; [apply re_split_pieces |]. split.
  - induction s as [| c s IH]; [reflexivity |].
    cbn [re_split filter].
    destruct (is_terminator c) eqn:E; cbn [negb].
    + destruct s as [| c' s']; [reflexivity |].
      destruct (is_terminator c'); exact IH.
    + rewrite <- IH. destruct (re_split s); reflexivity.
  - induction 1 as [| c s Hc Hs IH]; [reflexivity |].
    cbn [re_split]. now rewrite Hc, IH.
Qed.

Lemma re_split_keeps_the_rest_witness :
  re_split (lit "buy milk and bread") = [lit "buy milk and bread"].
Proof.
  apply (re_split_keeps_the_rest (lit "buy milk and bread")).
  repeat constructor.
Defined.

(** ** More on [validate_input] *)

(** X4: validation looks at the trimmed text only: trimming the text first
    changes nothing. *)
Theorem validate_input_strip (text : str) :
  validate_input (strip text) = validate_input text.
Proof.
  unfold validate_input. rewrite strip_idempotent.
  destruct text as [| c text]; [reflexivity |].
  destruct (is_empty (strip (c :: text))) eqn:E;
    [now rewrite orb_true_r | reflexivity].
Qed.

Lemma validate_input_cases (text : str) :
  (strip text = [] /\ validate_input text = (false, msg_empty))
  \/ (1 <= length (strip text) <= 2
      /\ validate_input text = (false, msg_short))
  \/ (200 < length (strip text) /\ validate_input text = (false, msg_long))
  \/ (3 <= length (strip text) <= 200 /\ validate_input text = (true, [])).
Proof.
  unfold validate_input.
  destruct (is_empty text) eqn:Et.
  { apply is_empty_true in Et. subst text. left. auto. }
  simpl. destruct (is_empty (strip text)) eqn:Es.
  { apply is_empty_true in Es. left. auto. }
  assert (Hpos : 1 <= length (strip text)).
  { destruct (strip text); [discriminate | simpl; lia]. }
  destruct (length (strip text) <? 3) eqn:E3.
  { apply Nat.ltb_lt in E3. right. left. split; [lia | reflexivity]. }
  apply Nat.ltb_ge in E3.
  destruct (200 <? length (strip text)) eqn:E200.
  { apply Nat.ltb_lt in E200. right. right. left. auto. }
  apply Nat.ltb_ge in E200. right. right. right. auto.
Qed.

(** X5: each refusal names its cause: "cannot be empty" exactly for the
    texts that trim to nothing, "too short" exactly for 1 or 2 characters
    after trimming, "too long" exactly for more than 200. *)
Theorem validate_input_messages (text : str) :
  (validate_input text = (false, msg_empty) <-> strip text = [])
  /\ (validate_input text = (false, msg_short)
      <-> 1 <= length (strip text) <= 2)
  /\ (validate_input text = (false, msg_long)
      <-> 200 < length (strip text)).
Proof.
  assert (Hes : msg_empty <> msg_short) by (vm_compute; discriminate).
  assert (Hel : msg_empty <> msg_long) by (vm_compute; discriminate).
  assert (Hsl : msg_short <> msg_long) by (vm_compute; discriminate).
  assert (Hlen : strip text = [] -> length (strip text) = 0).
  { intros ->. reflexivity. }
  assert (Hnil : length (strip text) <> 0 -> strip text <> []).
  { intros H E. apply H. now rewrite E. }
  destruct (validate_input_cases text)
    as [[H ->] | [[H ->] | [[H ->] | [H ->]]]].
  - specialize (Hlen H).
    split; [| split]; (split; [intro X | intro Y]);
      try reflexivity; try assumption; try lia;
      injection X as X; congruence.
  - split; [| split]; (split; [intro X | intro Y]);
      try reflexivity; try assumption; try lia;
      try (injection X as X; congruence).
    exfalso. apply Hnil; [lia | exact Y].
  - split; [| split]; (split; [intro X | intro Y]);
      try reflexivity; try assumption; try lia;
      try (injection X as X; congruence).
    exfalso. apply Hnil; [lia | exact Y].
  - split; [| split]; (split; [intro X | intro Y]);
      try discriminate; try lia.
    exfalso. apply Hnil; [lia | exact Y].
Qed.

(** ** Loading *)

(** X6: [load_model] answers [True] exactly when both fetches succeed, and
    that is exactly when a fresh predictor has its model and its tokenizer
    (what [test_model_loading] reports); the tokenizer then pads with its
    end-of-sequence token.  [load_model] of [app.py] gives the same pair
    on success and drops both when either fetch fails, where the predictor
    keeps a tokenizer fetched before the model failed. *)
Theorem loading_outcomes
    (ft : option GPT2Tokenizer) (fm : option GPT2LMHeadModel) (name : str) :
  let fresh := {| model_name := name; model := None; tokenizer := None |} in
  (snd (load_model fresh ft fm) = Ret true <-> (ft <> None /\ fm <> None))
  /\ snd (load_model fresh ft fm) = Ret (test_model_loading ft fm)
  /\ (test_model_loading ft fm = true ->
      (model (init name ft fm), tokenizer (init name ft fm))
      = app_load_model ft fm
      /\ exists tok, tokenizer (init name ft fm) = Some tok
                     /\ pad_token tok = Some (eos_token tok))
  /\ (fst (app_load_model ft fm) = None <-> snd (app_load_model ft fm) = None)
  /\ (fm = None -> tokenizer (init name ft fm) = ft
                   /\ app_load_model ft fm = (None, None)).
Proof.
  cbv zeta. destruct ft as [tok |], fm as [m |]; cbn;
    repeat split; try congruence; try discriminate; try tauto; eauto;
    try (intros [H1 H2]; congruence).
Qed.

Lemma loading_outcomes_witness :
  exists tok, tokenizer (init Samples.gpt2 (Some Samples.tok)
                           (Some (Weights Samples.gpt2))) = Some tok
              /\ pad_token tok = Some (eos_token tok).
Proof.
  apply (loading_outcomes (Some Samples.tok) (Some (Weights Samples.gpt2))
           Samples.gpt2).
  reflexivity.
Defined.

(** ** More on the attempt loops *)

Lemma subseq_nil_r {A} (l : list A) : subseq l [] -> l = [].
Proof. intro H. inversion H. reflexivity. Qed.

Lemma acceptable_quality (c : str) (preds : list str) :
  acceptable c preds = quality c && negb (mem c preds).
Proof.
  unfold acceptable, quality.
  destruct (negb (is_empty c)), (3 <=? length (split c)),
    (negb (mem c preds)), (10 <=? length c); reflexivity.
Qed.

Lemma mem_ext (x : str) (s1 s2 : list str) :
  (forall y, In y s1 <-> In y s2) -> mem x s1 = mem x s2.
Proof.
  intro H. destruct (mem x s2) eqn:E.
  - apply mem_true. apply H. now apply mem_true.
  - apply mem_false. intro Hin. apply H in Hin.
    apply mem_false in E. contradiction.
Qed.

Lemma dedup_from_ext (l s1 s2 : list str) :
  (forall y, In y s1 <-> In y s2) -> dedup_from s1 l = dedup_from s2 l.
Proof.
  revert s1 s2. induction l as [| x l IH]; intros s1 s2 H; simpl;
    [reflexivity |].
  rewrite (mem_ext x s1 s2 H).
  destruct (mem x s2).
  - now apply IH.
  - f_equal. apply IH. intro y. simpl. rewrite H. tauto.
Qed.

Lemma dedup_from_snoc (l preds : list str) (c : str) :
  dedup_from (preds ++ [c]) l = dedup_from (c :: preds) l.
Proof.
  apply dedup_from_ext. intro y. rewrite in_app_iff. simpl. tauto.
Qed.

Section LoopResults.

Variable lm : LM.
Variable input_text : str.

Lemma heading_step (c : str) (preds cs : list str) :
  heading (if acceptable c preds then preds ++ [c] else preds) cs
  = heading preds (c :: cs).
Proof.
  unfold heading. rewrite acceptable_quality. cbn [filter].
  destruct (quality c); cbn [andb]; [| reflexivity].
  cbn [dedup_from]. destruct (mem c preds); cbn [negb]; [reflexivity |].
  now rewrite <- app_assoc, dedup_from_snoc.
Qed.

Lemma cleaned_S_decoded (k count : nat) (text : str) :
  sample lm k = Decoded text ->
  cleaned lm input_text k (S count)
  = clean_generated_text text input_text :: cleaned lm input_text (S k) count.
Proof.
  intro E. unfold cleaned. now rewrite (decoded_texts_S_decoded _ _ _ _ E).
Qed.

Lemma predictions_loop_heading (n : Z) :
  forall iters preds k,
    (forall j, j < iters -> sample lm (k + j) <> Raised) ->
    exists r c,
      predictions_loop lm input_text n iters preds k = (Ret r, k + c)
      /\ c <= iters
      /\ firstn (Z.to_nat n) r
         = firstn (Z.to_nat n) (heading preds (cleaned lm input_text k iters)).
Proof.
  induction iters as [| iters IH]; intros preds k Hs.
  - exists preds, 0. simpl. unfold ret, heading. simpl.
    rewrite Nat.add_0_r, app_nil_r. auto.
  - destruct (sample lm k) as [text |] eqn:Es.
    2:{ exfalso. apply (Hs 0); [lia |]. now rewrite Nat.add_0_r. }
    rewrite predictions_loop_S, Es. cbv zeta.
    rewrite (cleaned_S_decoded _ _ _ Es), <- heading_step.
    set (preds1 := if acceptable _ preds then _ else preds).
    destruct (n <=? Z.of_nat (length preds1))%Z eqn:En.
    + exists preds1, 1. repeat split; [f_equal; lia | lia |].
      apply Z.leb_le in En. unfold heading.
      rewrite firstn_app.
      replace (Z.to_nat n - length preds1) with 0 by lia.
      simpl. now rewrite app_nil_r.
    + destruct (IH preds1 (S k)) as (r & c & Hrun & Hc & Hr).
      { intros j Hj. replace (S k + j) with (k + S j) by lia.
        apply Hs. lia. }
      exists r, (S c). repeat split; [| lia | exact Hr].
      rewrite Hrun. f_equal. lia.
Qed.

Lemma story_heading_step (text : str) (stories texts : list str) :
  story_heading input_text
    (add_story stories (new_text_of text input_text)) texts
  = story_heading input_text stories (text :: texts).
Proof.
  unfold story_heading, add_story. cbn [story_candidates].
  destruct (clean_story (new_text_of text input_text)) as [story |];
    [| reflexivity].
  cbn [filter]. unfold long_enough at 2.
  destruct (50 <? length story); cbn [andb]; [| reflexivity].
  cbn [dedup_from]. destruct (mem story stories); cbn [negb]; [reflexivity |].
  now rewrite <- app_assoc, dedup_from_snoc.
Qed.

Lemma stories_loop_heading :
  forall iters stories k,
    (forall j, j < iters -> sample lm (k + j) <> Raised) ->
    stories_loop lm input_text iters stories k
    = (Ret (story_heading input_text stories (decoded_texts lm k iters)),
       k + iters).
Proof.
  induction iters as [| iters IH]; intros stories k Hs.
  - simpl. unfold ret, story_heading. simpl.
    now rewrite Nat.add_0_r, app_nil_r.
  - destruct (sample lm k) as [text |] eqn:Es.
    2:{ exfalso. apply (Hs 0); [lia |]. now rewrite Nat.add_0_r. }
    rewrite stories_loop_S, Es.
    rewrite (decoded_texts_S_decoded _ _ _ _ Es). cbn [app].
    rewrite <- story_heading_step, IH.
    + f_equal. lia.
    + intros j Hj. replace (S k + j) with (k + S j) by lia.
      apply Hs. lia.
Qed.

(** The loops only ever hold what passed the test. *)
Lemma predictions_loop_all (Q : str -> Prop) (n : Z) :
  (forall text, quality (clean_generated_text text input_text) = true ->
                Q (clean_generated_text text input_text)) ->
  forall iters preds k r k',
    Forall Q preds ->
    predictions_loop lm input_text n iters preds k = (Ret r, k') ->
    Forall Q r.
Proof.
  intro HQ. induction iters as [| iters IH]; intros preds k r k' Hp Hrun.
  - simpl in Hrun. unfold ret in Hrun. inversion Hrun; subst. exact Hp.
  - rewrite predictions_loop_S in Hrun.
    destruct (sample lm k) as [text |]; [| discriminate].
    cbv zeta in Hrun.
    assert (Hp1 : Forall Q
      (if acceptable (clean_generated_text text input_text) preds
       then preds ++ [clean_generated_text text input_text] else preds)).
    { destruct (acceptable _ preds) eqn:Ha; [| exact Hp].
      rewrite acceptable_quality in Ha. apply andb_true_iff in Ha.
      apply Forall_app. split; [exact Hp |].
      constructor; [apply HQ; tauto | constructor]. }
    destruct (n <=? _)%Z.
    + inversion Hrun; subst. exact Hp1.
    + eapply IH; eauto.
Qed.

Lemma stories_loop_all (Q : str -> Prop) :
  (forall text story,
      clean_story (new_text_of text input_text) = Some story ->
      long_enough story = true -> Q story) ->
  forall iters stories k r k',
    Forall Q stories ->
    stories_loop lm input_text iters stories k = (Ret r, k') ->
    Forall Q r.
Proof.
  intro HQ. induction iters as [| iters IH]; intros stories k r k' Hp Hrun.
  - simpl in Hrun. unfold ret in Hrun. inversion Hrun; subst. exact Hp.
  - rewrite stories_loop_S in Hrun.
    destruct (sample lm k) as [text |]; [| discriminate].
    eapply IH; [| exact Hrun].
    unfold add_story.
    destruct (clean_story (new_text_of text input_text)) as [story |] eqn:Ec;
      [| exact Hp].
    destruct (_ && _) eqn:Ha; [| exact Hp].
    apply andb_true_iff in Ha.
    apply Forall_app. split; [exact Hp |].
    constructor; [eapply HQ; [exact Ec | apply Ha] | constructor].
Qed.

(** Before every call but the first of a run of the single-sentence loop,
    fewer than [n] candidates had been collected. *)
Lemma predictions_loop_prefix (n : Z) :
  forall iters preds k res k',
    predictions_loop lm input_text n iters preds k = (res, k') ->
    forall i, 0 < i < k' - k ->
      exists p, predictions_loop lm input_text n i preds k = (Ret p, k + i)
                /\ (Z.of_nat (length p) < n)%Z.
Proof.
  induction iters as [| iters IH]; intros preds k res k' Hrun i Hi.
  - simpl in Hrun. unfold ret in Hrun. inversion Hrun; subst. lia.
  - rewrite predictions_loop_S in Hrun.
    destruct (sample lm k) as [text |] eqn:Es.
    2:{ inversion Hrun; subst. lia. }
    cbv zeta in Hrun.
    destruct i as [| i]; [lia |].
    rewrite predictions_loop_S, Es. cbv zeta.
    destruct (n <=? _)%Z eqn:Hn.
    + inversion Hrun; subst. lia.
    + destruct i as [| i].
      * simpl. unfold ret. eexists. split.
        { f_equal. lia. }
        apply Z.leb_gt in Hn. exact Hn.
      * destruct (IH _ _ _ _ Hrun (S i)) as (p & Hp & Hlen); [lia |].
        exists p. split; [| exact Hlen].
        rewrite Hp. f_equal. lia.
Qed.

End LoopResults.

(** ** More on whole requests *)

Lemma slice_to_nil {A} (n : Z) : slice_to (@nil A) n = [].
Proof. unfold slice_to. destruct (0 <=? n)%Z; apply firstn_nil. Qed.

Lemma slice_to_nonneg {A} (l : list A) (n : Z) :
  (0 <= n)%Z -> slice_to l n = firstn (Z.to_nat n) l.
Proof.
  intro H. unfold slice_to. apply Z.leb_le in H. now rewrite H.
Qed.

(** An answer is empty, or a slice of what the loop returned. *)
Lemma generate_predictions_loop (self : NextSentencePredictor) (lm : LM)
    (input_text : str) (n : Z) (k : nat) :
  exists r k',
    generate_predictions self lm input_text n k = (Ret r, k')
    /\ (r = []
        \/ exists preds,
             predictions_loop lm input_text n (Z.to_nat (n * 2)) [] k
             = (Ret preds, k')
             /\ r = slice_to preds n).
Proof.
  unfold generate_predictions.
  destruct (model self); [| exists [], k; auto].
  destruct (tokenizer self); [| exists [], k; auto].
  unfold try_except, bind, encode, ret.
  destruct (encode_raises lm); [exists [], k; auto |].
  destruct (predictions_loop lm input_text n (Z.to_nat (n * 2)) [] k)
    as [[preds |] k'] eqn:Hrun.
  - exists (slice_to preds n), k'. split; [reflexivity |]. right. eauto.
  - exists [], k'. auto.
Qed.

Lemma generate_stories_loop (lm : LM) (input_text : str) (n : Z) (k : nat) :
  exists r k',
    generate_stories lm input_text n k = (Ret r, k')
    /\ (r = []
        \/ exists stories,
             stories_loop lm input_text (Z.to_nat (n * 2)) [] k
             = (Ret stories, k')
             /\ r = slice_to stories n).
Proof.
  unfold generate_stories, try_except, bind, encode, ret.
  destruct (encode_raises lm); [exists [], k; auto |].
  destruct (stories_loop lm input_text (Z.to_nat (n * 2)) [] k)
    as [[stories |] k'] eqn:Hrun.
  - exists (slice_to stories n), k'. split; [reflexivity |]. right. eauto.
  - exists [], k'. auto.
Qed.

Lemma slice_to_length_le {A} (l : list A) (n : Z) :
  ((n < 0)%Z -> l = []) -> length (slice_to l n) <= Z.to_nat n.
Proof.
  intro H. destruct (Z.ltb_spec n 0) as [Hneg | Hpos].
  - rewrite (H Hneg), slice_to_nil. simpl. lia.
  - rewrite slice_to_nonneg by lia. apply firstn_le_length.
Qed.

(** X7: in both modes the answer never has more entries than were asked
    for (none at all for a count that is not positive). *)
Theorem answers_within_count
    (self : NextSentencePredictor) (lm : LM) (input_text : str) (n : Z)
    (k : nat) :
  (exists r k',
      generate_predictions self lm input_text n k = (Ret r, k')
      /\ length r <= Z.to_nat n)
  /\ (exists r k',
      generate_stories lm input_text n k = (Ret r, k')
      /\ length r <= Z.to_nat n).
Proof.
  split.
  - destruct (generate_predictions_loop self lm input_text n k)
      as (r & k' & Hrun & Hcases).
    exists r, k'. split; [exact Hrun |].
    destruct Hcases as [-> | (preds & Hloop & ->)]; [simpl; lia |].
    apply slice_to_length_le. intro Hneg.
    replace (Z.to_nat (n * 2)) with 0 in Hloop by lia.
    simpl in Hloop. unfold ret in Hloop. now inversion Hloop.
  - destruct (generate_stories_loop lm input_text n k)
      as (r & k' & Hrun & Hcases).
    exists r, k'. split; [exact Hrun |].
    destruct Hcases as [-> | (stories & Hloop & ->)]; [simpl; lia |].
    apply slice_to_length_le. intro Hneg.
    replace (Z.to_nat (n * 2)) with 0 in Hloop by lia.
    simpl in Hloop. unfold ret in Hloop. now inversion Hloop.
Qed.

(** X8: asked for zero or a negative number of continuations, both modes
    answer the empty list without a single sampling call. *)
Theorem nothing_asked_nothing_sampled
    (self : NextSentencePredictor) (lm : LM) (input_text : str) (n : Z)
    (k : nat) :
  (n <= 0)%Z ->
  generate_predictions self lm input_text n k = (Ret [], k)
  /\ generate_stories lm input_text n k = (Ret [], k).
Proof.
  intro Hn.
  assert (E : Z.to_nat (n * 2) = 0) by lia.
  unfold generate_predictions, generate_stories,
    try_except, bind, encode, ret.
  rewrite E. simpl. unfold ret. rewrite slice_to_nil.
  destruct (model self), (tokenizer self), (encode_raises lm); auto.
Qed.

Lemma nothing_asked_nothing_sampled_witness :
  generate_predictions Samples.loaded (Samples.lm_const Samples.raw_bread)
    Samples.store 0 0 = (Ret [], 0)
  /\ generate_stories (Samples.lm_const Samples.raw_once) Samples.once (-3) 0
     = (Ret [], 0).
Proof.
  split.
  - apply (nothing_asked_nothing_sampled Samples.loaded
             (Samples.lm_const Samples.raw_bread) Samples.store 0 0). lia.
  - apply (nothing_asked_nothing_sampled Samples.loaded
             (Samples.lm_const Samples.raw_once) Samples.once (-3) 0). lia.
Defined.

(** X9: single-sentence mode makes at most [2 * n] sampling calls, and
    none once [n] candidates are collected: before every call of a request
    but the first, the loop held fewer than [n] candidates. *)
Theorem generate_predictions_stops_when_full
    (self : NextSentencePredictor) (lm : LM) (input_text : str) (n : Z)
    (k : nat) :
  let k' := snd (generate_predictions self lm input_text n k) in
  k' <= k + Z.to_nat (n * 2)
  /\ forall i, 0 < i < k' - k ->
       exists p,
         predictions_loop lm input_text n i [] k = (Ret p, k + i)
         /\ (Z.of_nat (length p) < n)%Z.
Proof.
  cbv zeta. split; [apply generate_predictions_budget |].
  unfold generate_predictions.
  destruct (model self); [| simpl; intros; lia].
  destruct (tokenizer self); [| simpl; intros; lia].
  unfold try_except, bind, encode, ret.
  destruct (encode_raises lm); [simpl; intros; lia |].
  destruct (predictions_loop lm input_text n (Z.to_nat (n * 2)) [] k)
    as [res k'] eqn:Hrun.
  intros i Hi.
  apply (predictions_loop_prefix lm input_text n _ _ _ _ _ Hrun).
  destruct res; exact Hi.
Qed.

Lemma generate_predictions_stops_when_full_witness :
  exists p,
    predictions_loop (Samples.lm_const Samples.raw_br3ad) Samples.store 2 1 [] 0
    = (Ret p, 0 + 1)
    /\ (Z.of_nat (length p) < 2)%Z.
Proof.
  pose proof (generate_predictions_stops_when_full Samples.loaded
                (Samples.lm_const Samples.raw_br3ad) Samples.store 2 0) as H.
  cbv zeta in H. destruct H as [_ H].
  apply H. vm_compute. lia.
Defined.

(** X10: story mode makes at most [2 * n] sampling calls, and exactly
    [2 * n] whenever encoding and these calls do not raise: collecting
    enough stories does not end its loop. *)
Theorem generate_stories_call_count
    (lm : LM) (input_text : str) (n : Z) (k : nat) :
  snd (generate_stories lm input_text n k) <= k + Z.to_nat (n * 2)
  /\ (encode_raises lm = false ->
      (forall j, j < Z.to_nat (n * 2) -> sample lm (k + j) <> Raised) ->
      snd (generate_stories lm input_text n k) = k + Z.to_nat (n * 2)).
Proof.
  split; [apply generate_stories_budget |].
  intros He Hs.
  unfold generate_stories, try_except, bind, encode, ret. rewrite He.
  now rewrite (stories_loop_heading lm input_text _ _ _ Hs).
Qed.

Lemma generate_stories_call_count_witness :
  snd (generate_stories (Samples.lm_const Samples.raw_once) Samples.once 3 0)
  = 0 + Z.to_nat (3 * 2).
Proof.
  apply (generate_stories_call_count (Samples.lm_const Samples.raw_once)
           Samples.once 3 0).
  - reflexivity.
  - intros j _. simpl. discriminate.
Defined.

(** X11: when the session is loaded and neither encoding nor any of the
    [2 * n] possible calls raises, single-sentence mode returns the first
    [n] distinct candidates of quality (non-empty, at least 3 words, at
    least 10 characters) among the cleaned completions, in call order. *)
Theorem generate_predictions_result
    (self : NextSentencePredictor) (lm : LM) (input_text : str) (n : Z)
    (k : nat) :
  model self <> None -> tokenizer self <> None ->
  encode_raises lm = false ->
  (forall j, j < Z.to_nat (n * 2) -> sample lm (k + j) <> Raised) ->
  fst (generate_predictions self lm input_text n k)
  = Ret (firstn (Z.to_nat n)
           (dedup (filter quality
                     (cleaned lm input_text k (Z.to_nat (n * 2)))))).
Proof.
  intros Hm Ht He Hs.
  unfold generate_predictions.
  destruct (model self); [| now elim Hm].
  destruct (tokenizer self); [| now elim Ht].
  unfold try_except, bind, encode, ret. rewrite He.
  destruct (predictions_loop_heading lm input_text n _ [] k Hs)
    as (r & c & Hrun & _ & Hr).
  rewrite Hrun. cbn [fst]. f_equal.
  unfold heading in Hr. cbn [app] in Hr. fold (dedup (filter quality
    (cleaned lm input_text k (Z.to_nat (n * 2))))) in Hr.
  rewrite <- Hr.
  destruct (Z.ltb_spec n 0) as [Hneg | Hpos].
  - replace (Z.to_nat (n * 2)) with 0 in Hrun by lia.
    simpl in Hrun. unfold ret in Hrun. inversion Hrun; subst.
    rewrite slice_to_nil. now rewrite firstn_nil.
  - now apply slice_to_nonneg.
Qed.

Lemma generate_predictions_result_witness :
  fst (generate_predictions Samples.loaded (Samples.lm_const Samples.raw_bread)
         Samples.store 3 0)
  = Ret (firstn (Z.to_nat 3)
           (dedup (filter quality
                     (cleaned (Samples.lm_const Samples.raw_bread)
                        Samples.store 0 (Z.to_nat (3 * 2)))))).
Proof.
  apply (generate_predictions_result Samples.loaded
           (Samples.lm_const Samples.raw_bread) Samples.store 3 0).
  - vm_compute. discriminate.
  - vm_compute. discriminate.
  - reflexivity.
  - intros j _. simpl. discriminate.
Defined.

(** X12: when neither encoding nor any of the [2 * n] calls raises, story
    mode returns the first [n] distinct stories of more than 50 characters
    among those the completions lead to, in call order. *)
Theorem generate_stories_result
    (lm : LM) (input_text : str) (n : Z) (k : nat) :
  encode_raises lm = false ->
  (forall j, j < Z.to_nat (n * 2) -> sample lm (k + j) <> Raised) ->
  fst (generate_stories lm input_text n k)
  = Ret (firstn (Z.to_nat n)
           (dedup (filter long_enough
                     (story_candidates input_text
                        (decoded_texts lm k (Z.to_nat (n * 2))))))).
Proof.
  intros He Hs.
  unfold generate_stories, try_except, bind, encode, ret. rewrite He.
  rewrite (stories_loop_heading lm input_text _ _ _ Hs). cbn [fst].
  f_equal. unfold story_heading. cbn [app].
  fold (dedup (filter long_enough (story_candidates input_text
         (decoded_texts lm k (Z.to_nat (n * 2)))))).
  destruct (Z.ltb_spec n 0) as [Hneg | Hpos].
  - replace (Z.to_nat (n * 2)) with 0 by lia.
    replace (Z.to_nat n) with 0 by lia.
    simpl. apply slice_to_nil.
  - now apply slice_to_nonneg.
Qed.

Lemma generate_stories_result_witness :
  fst (generate_stories (Samples.lm_const Samples.raw_once) Samples.once 1 0)
  = Ret (firstn (Z.to_nat 1)
           (dedup (filter long_enough
                     (story_candidates Samples.once
                        (decoded_texts (Samples.lm_const Samples.raw_once) 0
                           (Z.to_nat (1 * 2))))))).
Proof.
  apply (generate_stories_result (Samples.lm_const Samples.raw_once)
           Samples.once 1 0).
  - reflexivity.
  - intros j _. simpl. discriminate.
Defined.

(** X13: every candidate that single-sentence mode returns has at least 10
    characters and at least 3 whitespace-separated words. *)
Theorem returned_candidates_pass_the_test
    (self : NextSentencePredictor) (lm : LM) (input_text : str) (n : Z)
    (k k' : nat) (r : list str) (c : str) :
  generate_predictions self lm input_text n k = (Ret r, k') ->
  In c r ->
  10 <= length c /\ 3 <= length (split c).
Proof.
  intros Hrun Hin.
  destruct (generate_predictions_loop self lm input_text n k)
    as (r0 & k0 & Hrun0 & Hcases).
  rewrite Hrun in Hrun0. inversion Hrun0; subst r0 k0.
  destruct Hcases as [-> | (preds & Hloop & ->)]; [contradiction |].
  apply (subseq_In _ _ _ (slice_to_subseq preds n)) in Hin.
  assert (Hall : Forall (fun x => 10 <= length x /\ 3 <= length (split x))
                   preds).
  { eapply (predictions_loop_all lm input_text); [| constructor | exact Hloop].
    intros text Hq. unfold quality in Hq.
    rewrite !andb_true_iff, !Nat.leb_le in Hq. tauto. }
  eapply (proj1 (Forall_forall _ _) Hall). exact Hin.
Qed.

Lemma returned_candidates_pass_the_test_witness :
  10 <= length (lit "buy milk and bread")
  /\ 3 <= length (split (lit "buy milk and bread")).
Proof.
  apply (returned_candidates_pass_the_test Samples.loaded
           (Samples.lm_const Samples.raw_bread) Samples.store 3 0 6
           [lit "buy milk and bread"]).
  - vm_compute. reflexivity.
  - simpl. left. reflexivity.
Defined.

(** ** More on the story filter *)

Lemma kept_segments_shape (new_text : str) :
  length (kept_segments new_text) <= 4
  /\ Forall (fun g => g <> [] /\ strip g = g /\ no_terminator g)
       (kept_segments new_text).
Proof.
  split.
  - unfold kept_segments. rewrite length_map.
    pose proof (filter_length_le nonblank (firstn 4 (re_split new_text))).
    pose proof (firstn_le_length 4 (re_split new_text)). lia.
  - apply Forall_forall. intros g Hg. unfold kept_segments in Hg.
    apply in_map_iff in Hg. destruct Hg as (s & <- & Hs).
    apply filter_In in Hs. destruct Hs as [Hs Hnb].
    apply (subseq_In _ _ _ (subseq_firstn 4 (re_split new_text))) in Hs.
    split; [| split].
    + unfold nonblank in Hnb. intro E. rewrite E in Hnb. discriminate.
    + apply strip_idempotent.
    + apply Forall_strip.
      eapply (proj1 (Forall_forall _ _) (re_split_pieces new_text)).
      exact Hs.
Qed.

Lemma clean_story_kept (new_text story : str) :
  clean_story new_text = Some story ->
  story = join period_space (kept_segments new_text) ++ period
  /\ 2 <= length (kept_segments new_text).
Proof.
  unfold clean_story. cbv zeta. fold nonblank. fold (kept_segments new_text).
  destruct (2 <=? length (re_split new_text)); [| discriminate].
  destruct (2 <=? length (kept_segments new_text)) eqn:E; [| discriminate].
  intro H. inversion H. apply Nat.leb_le in E. auto.
Qed.

Lemma no_terminator_marks (s : str) :
  no_terminator s -> Forall (fun ch => ch <> "!"%char /\ ch <> "?"%char) s.
Proof.
  apply Forall_impl. intros ch H. split; intro E; subst ch; discriminate.
Qed.

(** X14: every story that story mode returns is made of two to four
    sentences, each of them non-empty, trimmed and free of terminators,
    joined by ". " and closed by "."; it has more than 50 characters and
    holds neither "!" nor "?". *)
Theorem returned_stories_shape
    (lm : LM) (input_text : str) (n : Z) (k k' : nat) (r : list str)
    (story : str) :
  generate_stories lm input_text n k = (Ret r, k') ->
  In story r ->
  (exists segs,
      story = join period_space segs ++ period
      /\ 2 <= length segs <= 4
      /\ Forall (fun g => g <> [] /\ strip g = g /\ no_terminator g) segs)
  /\ 50 < length story
  /\ Forall (fun ch => ch <> "!"%char /\ ch <> "?"%char) story.
Proof.
  intros Hrun Hin.
  destruct (generate_stories_loop lm input_text n k)
    as (r0 & k0 & Hrun0 & Hcases).
  rewrite Hrun in Hrun0. inversion Hrun0; subst r0 k0.
  destruct Hcases as [-> | (stories & Hloop & ->)]; [contradiction |].
  apply (subseq_In _ _ _ (slice_to_subseq stories n)) in Hin.
  revert story Hin. apply Forall_forall.
  eapply (stories_loop_all lm input_text); [| constructor | exact Hloop].
  intros text story Hc Hlong.
  apply clean_story_kept in Hc. destruct Hc as [-> H2].
  destruct (kept_segments_shape (new_text_of text input_text)) as [H4 Hall].
  split; [| split].
  - exists (kept_segments (new_text_of text input_text)).
    repeat split; auto.
  - unfold long_enough in Hlong. now apply Nat.ltb_lt in Hlong.
  - apply Forall_app. split.
    + apply Forall_join.
      * repeat constructor; discriminate.
      * eapply Forall_impl; [| exact Hall].
        intros g (_ & _ & Hg). now apply no_terminator_marks.
    + repeat constructor; discriminate.
Qed.

Lemma returned_stories_shape_witness :
  50 < length (lit "there was a small village by the sea. The people there were fishermen and farmers. They lived.").
Proof.
  apply (returned_stories_shape (Samples.lm_const Samples.raw_once)
           Samples.once 1 0 2
           [lit "there was a small village by the sea. The people there were fishermen and farmers. They lived."]).
  - vm_compute. reflexivity.
  - simpl. left. reflexivity.
Defined.

(** ** No duplicates, and the order of the answer *)

Section AnswerOrder.

Variable lm : LM.
Variable input_text : str.

(** A single-sentence loop that returns holds exactly the first
    occurrences of the candidates of quality among the completions of the
    calls it made, behind what it started with. *)
Lemma predictions_loop_exact (n : Z) :
  forall iters preds k r k',
    predictions_loop lm input_text n iters preds k = (Ret r, k') ->
    r = heading preds (cleaned lm input_text k (k' - k)).
Proof.
  induction iters as [| iters IH]; intros preds k r k' Hrun.
  - simpl in Hrun. unfold ret in Hrun. inversion Hrun; subst.
    rewrite Nat.sub_diag. unfold heading. simpl. now rewrite app_nil_r.
  - rewrite predictions_loop_S in Hrun.
    destruct (sample lm k) as [text |] eqn:Es; [| discriminate].
    cbv zeta in Hrun.
    destruct (n <=? _)%Z.
    + inversion Hrun; subst.
      replace (S k - k) with 1 by lia.
      rewrite (cleaned_S_decoded _ _ _ _ _ Es), <- heading_step.
      unfold heading, cleaned. cbn [decoded_texts map filter dedup_from].
      now rewrite app_nil_r.
    + pose proof (predictions_loop_ret _ _ _ _ _ _ _ _ Hrun)
        as (c & _ & Hk & _).
      apply IH in Hrun.
      replace (k' - k) with (S (k' - S k)) by lia.
      now rewrite (cleaned_S_decoded _ _ _ _ _ Es), <- heading_step.
Qed.

(** With no call of the request raising, the single-sentence answer is the
    first [n] of the first occurrences, in call order. *)
Lemma generate_predictions_order (self : NextSentencePredictor) (n : Z)
    (k k' : nat) (r : list str) :
  generate_predictions self lm input_text n k = (Ret r, k') ->
  (forall j, k <= j < k' -> sample lm j <> Raised) ->
  r = firstn (Z.to_nat n)
        (dedup (filter quality (cleaned lm input_text k (k' - k)))).
Proof.
  intros Hrun Hs.
  assert (Hnil : forall k0 : nat,
            [] = firstn (Z.to_nat n)
                   (dedup (filter quality (cleaned lm input_text k0 (k0 - k0))))).
  { intro k0. rewrite Nat.sub_diag. simpl. now rewrite firstn_nil. }
  unfold generate_predictions in Hrun.
  destruct (model self); [| inversion Hrun; subst; apply Hnil].
  destruct (tokenizer self); [| inversion Hrun; subst; apply Hnil].
  unfold try_except, bind, encode, ret in Hrun.
  destruct (encode_raises lm); [inversion Hrun; subst; apply Hnil |].
  destruct (predictions_loop lm input_text n (Z.to_nat (n * 2)) [] k)
    as [[preds |] k1] eqn:Hloop.
  - inversion Hrun; subst r k1. clear Hrun.
    pose proof (predictions_loop_exact _ _ _ _ _ _ Hloop) as Hp.
    unfold heading in Hp. cbn [app] in Hp.
    fold (dedup (filter quality (cleaned lm input_text k (k' - k)))) in Hp.
    rewrite <- Hp.
    destruct (Z.ltb_spec n 0) as [Hneg | Hpos].
    + replace (Z.to_nat (n * 2)) with 0 in Hloop by lia.
      simpl in Hloop. unfold ret in Hloop. inversion Hloop; subst.
      rewrite slice_to_nil. now rewrite firstn_nil.
    + now apply slice_to_nonneg.
  - inversion Hrun; subst r k1. clear Hrun.
    apply predictions_loop_exn in Hloop.
    destruct Hloop as (c & -> & _ & Hr & _).
    exfalso. apply (Hs (k + c)); [lia | exact Hr].
Qed.

Lemma generate_stories_order (n : Z) (k k' : nat) (r : list str) :
  generate_stories lm input_text n k = (Ret r, k') ->
  (forall j, k <= j < k' -> sample lm j <> Raised) ->
  r = firstn (Z.to_nat n)
        (dedup (filter long_enough
                  (story_candidates input_text
                     (decoded_texts lm k (k' - k))))).
Proof.
  intros Hrun Hs.
  unfold generate_stories, try_except, bind, encode, ret in Hrun.
  destruct (encode_raises lm).
  { inversion Hrun; subst. rewrite Nat.sub_diag. simpl.
    now rewrite firstn_nil. }
  destruct (stories_loop lm input_text (Z.to_nat (n * 2)) [] k)
    as [[stories |] k1] eqn:Hloop.
  - inversion Hrun; subst r k1. clear Hrun.
    pose proof (stories_loop_ret _ _ _ _ _ _ _ Hloop)
      as (added & Hk & _ & Hnone & _).
    rewrite (stories_loop_heading lm input_text _ _ _ Hnone) in Hloop.
    inversion Hloop as [[Hst Hk']]. subst k'.
    replace (k + Z.to_nat (n * 2) - k) with (Z.to_nat (n * 2)) by lia.
    unfold story_heading. cbn [app].
    fold (dedup (filter long_enough (story_candidates input_text
           (decoded_texts lm k (Z.to_nat (n * 2)))))).
    destruct (Z.ltb_spec n 0) as [Hneg | Hpos].
    + replace (Z.to_nat (n * 2)) with 0 by lia.
      replace (Z.to_nat n) with 0 by lia.
      simpl. apply slice_to_nil.
    + now apply slice_to_nonneg.
  - inversion Hrun; subst r k1. clear Hrun.
    apply stories_loop_exn in Hloop.
    destruct Hloop as (c & -> & _ & Hr & _).
    exfalso. apply (Hs (k + c)); [lia | exact Hr].
Qed.

End AnswerOrder.

(** C6: in both modes the answer has no two equal entries, so that
    de-duplicating it changes neither its length nor its order, and its
    entries come in the order of the attempts that produced them: when no
    call of the request raised, the answer is exactly the first [n]
    entries of the first-occurrence de-duplication of the candidates that
    pass the test, taken in call order (first accepted first). *)
Theorem results_have_no_duplicates
    (self : NextSentencePredictor) (lm : LM) (input_text : str) (n : Z)
    (k : nat) :
  (exists r k',
      generate_predictions self lm input_text n k = (Ret r, k')
      /\ NoDup r /\ dedup r = r /\ length (dedup r) = length r
      /\ subseq r (cleaned lm input_text k (k' - k))
      /\ ((forall j, k <= j < k' -> sample lm j <> Raised) ->
          r = firstn (Z.to_nat n)
                (dedup (filter quality
                          (cleaned lm input_text k (k' - k))))))
  /\ (exists r k',
      generate_stories lm input_text n k = (Ret r, k')
      /\ NoDup r /\ dedup r = r /\ length (dedup r) = length r
      /\ subseq r (story_candidates input_text (decoded_texts lm k (k' - k)))
      /\ ((forall j, k <= j < k' -> sample lm j <> Raised) ->
          r = firstn (Z.to_nat n)
                (dedup (filter long_enough
                          (story_candidates input_text
                             (decoded_texts lm k (k' - k))))))).
Proof.
  assert (Hfix : forall r : list str,
            NoDup r -> NoDup r /\ dedup r = r /\ length (dedup r) = length r).
  { intros r H. rewrite (dedup_fixed r H). auto. }
  split.
  - destruct (generate_predictions_run lm input_text self n k)
      as (r & k' & Hrun & Hcases).
    exists r, k'. split; [exact Hrun |].
    assert (Hord := generate_predictions_order lm input_text self n k k' r Hrun).
    destruct Hcases as [[-> ->] | [[-> _] | (p & c & -> & -> & _ & _ & Hsub & _ & Hnd)]].
    + rewrite <- !and_assoc. split; [| exact Hord].
      split; [apply and_assoc, Hfix; constructor | apply subseq_nil_l].
    + rewrite <- !and_assoc. split; [| exact Hord].
      split; [apply and_assoc, Hfix; constructor | apply subseq_nil_l].
    + rewrite <- !and_assoc. split; [| exact Hord].
      split; [apply and_assoc, Hfix; now apply slice_to_NoDup |].
      replace (k + c - k) with c by lia.
      eapply subseq_trans; [apply slice_to_subseq | exact Hsub].
  - destruct (generate_stories_run lm input_text n k)
      as (r & k' & Hrun & Hcases).
    exists r, k'. split; [exact Hrun |].
    assert (Hord := generate_stories_order lm input_text n k k' r Hrun).
    destruct Hcases as [[-> ->] | [[-> _] | (p & -> & -> & _ & Hsub & Hnd)]].
    + rewrite <- !and_assoc. split; [| exact Hord].
      split; [apply and_assoc, Hfix; constructor | apply subseq_nil_l].
    + rewrite <- !and_assoc. split; [| exact Hord].
      split; [apply and_assoc, Hfix; constructor | apply subseq_nil_l].
    + rewrite <- !and_assoc. split; [| exact Hord].
      split; [apply and_assoc, Hfix; now apply slice_to_NoDup |].
      replace (k + Z.to_nat (n * 2) - k) with (Z.to_nat (n * 2)) by lia.
      eapply subseq_trans; [apply slice_to_subseq | exact Hsub].
Qed.

Lemma results_have_no_duplicates_witness :
  exists r k',
    generate_predictions Samples.loaded Samples.lm_alternating
      Samples.store 3 0 = (Ret r, k')
    /\ r = [lit "buy milk and bread"; lit "buy milk and"]
    /\ r = firstn (Z.to_nat 3)
             (dedup (filter quality
                       (cleaned Samples.lm_alternating Samples.store 0
                          (k' - 0)))).
Proof.
  destruct (results_have_no_duplicates Samples.loaded Samples.lm_alternating
              Samples.store 3 0)
    as [(r & k' & Hrun & _ & _ & _ & _ & Hord) _].
  exists r, k'. split; [exact Hrun |]. split.
  - assert (E : generate_predictions Samples.loaded Samples.lm_alternating
                  Samples.store 3 0
                = (Ret [lit "buy milk and bread"; lit "buy milk and"], 6))
      by (vm_compute; reflexivity).
    rewrite E in Hrun. now inversion Hrun.
  - apply Hord. intros j _. simpl. destruct (Nat.even j); discriminate.
Defined.
